(** * Scale publisher filters

    A shallow embedding of the filter classes of [scale_publisher_fixed.py]
    ([SimpleKalmanFilter], [PositionVelocityKalmanFilter]) and of the moving
    average described in the specification, with the properties claimed about
    them.

    Python's [float] is IEEE 754 binary64. The filters are written once over
    the class [PyFloat] of the operators the source uses, and [binary64], the
    kernel's primitive floats, is the carrier that stands for Python's
    [float]. Every property is proved either for all carriers, when it only
    depends on the structure of the code, or for [binary64], from the
    specification of the rounded operations ([SpecFloat]); order, overflow,
    infinities and NaN are those of binary64.

    A second carrier, the exact rationals, is not a model of [float]: it is
    only used next to [binary64] when an input refutes a wording, to show
    that the refutation does not hinge on rounding. *)

From Stdlib Require Import ZArith QArith Qcanon Floats Uint63.
From Stdlib Require Import List Bool Lia.
Import ListNotations.

Set Implicit Arguments.

(** ** Results of Python calls *)

(** The exceptions that matter here. [ZeroDivisionError] is what [x / y]
    raises on floats when [y == 0.0]; [OverflowError] is what [x ** n] raises
    on floats when the result is out of range; [InvalidConfiguration] is the
    error of the specification's taxonomy (section 7). *)
Inductive exn : Set :=
| ZeroDivisionError
| OverflowError
| InvalidConfiguration.

(** A call either returns a value or raises. *)
Inductive result (A : Type) : Type :=
| Return (a : A)
| Raise (e : exn).

Arguments Return {A} a.
Arguments Raise {A} e.

Definition bind {A B : Type} (r : result A) (k : A -> result B) : result B :=
  match r with
  | Return a => k a
  | Raise e => Raise e
  end.

Notation "x <- r ;; k" := (bind r (fun x => k))
  (at level 61, r at next level, right associativity).

Definition returns {A : Type} (r : result A) : bool :=
  match r with
  | Return _ => true
  | Raise _ => false
  end.

(** The value a call returned, or [d] when it raised. *)
Definition returned_or {A : Type} (d : A) (r : result A) : A :=
  match r with
  | Return a => a
  | Raise _ => d
  end.

(** ** Python floats *)

(** The operators of [float] that the source uses, and the comparisons in
    which the specification states its bounds. [lit z] is a numeric literal
    of integral value ([0.0], [1.0], [1], [4], ...); [quot] is the quotient
    for a divisor that is not zero, the zero test being [truediv]'s; [eqb],
    [leb] and [ltb] are [==], [<=] and [<]. *)
Class PyFloat (T : Type) : Type := {
  lit : Z -> T;
  add : T -> T -> T;
  sub : T -> T -> T;
  mul : T -> T -> T;
  quot : T -> T -> T;
  eqb : T -> T -> bool;
  leb : T -> T -> bool;
  ltb : T -> T -> bool
}.

(** [x ** n] for an integral exponent. On floats CPython computes it with
    the C library's [pow] and raises [OverflowError] when the result of a
    finite operand is out of range. The C library fixes the result of [pow]
    only up to the last bit, so the operation is a parameter: what is proved
    about code that uses [**] holds whatever [pow] returns or raises. *)
Class PyPow (T : Type) : Type := pow : T -> Z -> result T.

Declare Scope py_scope.
Delimit Scope py_scope with py.

(** [x / y] on floats: raises when the divisor compares equal to zero. *)
Definition truediv {T : Type} {float_T : PyFloat T} (x y : T) : result T :=
  if eqb y (lit 0) then Raise ZeroDivisionError else Return (quot x y).

Infix "+" := add : py_scope.
Infix "-" := sub : py_scope.
Infix "*" := mul : py_scope.
Infix "/" := truediv : py_scope.
Infix "**" := pow (at level 30, right associativity) : py_scope.

(** *** IEEE 754 binary64 *)

Definition float_of_Z (z : Z) : float :=
  match z with
  | Z0 => PrimFloat.zero
  | Zpos p => PrimFloat.of_uint63 (Uint63.of_pos p)
  | Zneg p => PrimFloat.opp (PrimFloat.of_uint63 (Uint63.of_pos p))
  end.

#[export] Instance binary64 : PyFloat float := {|
  lit := float_of_Z;
  add := PrimFloat.add;
  sub := PrimFloat.sub;
  mul := PrimFloat.mul;
  quot := PrimFloat.div;
  eqb := PrimFloat.eqb;
  leb := PrimFloat.leb;
  ltb := PrimFloat.ltb
|}.

(** *** Exact rationals *)

(** Not Python's [float]: no rounding, no overflow, no NaN. This carrier only
    serves to replay, without rounding, the inputs on which a wording fails
    on [binary64]. *)

Definition Qc_leb (x y : Qc) : bool := Qle_bool x y.
Definition Qc_ltb (x y : Qc) : bool := negb (Qle_bool y x).

#[export] Instance exact : PyFloat Qc := {|
  lit := fun z => Q2Qc (inject_Z z);
  add := Qcplus;
  sub := Qcminus;
  mul := Qcmult;
  quot := Qcdiv;
  eqb := Qc_eq_bool;
  leb := Qc_leb;
  ltb := Qc_ltb
|}.

(** *** Powers with an exact result *)

(** [x ** n] for a small [n >= 0] by repeated multiplication, raising as
    CPython does when a finite [x] gives an infinite result. Where every
    product is exact this is also what the C library's [pow] returns; it is
    used to run the constructor of [PositionVelocityKalmanFilter] on such
    inputs, and is not declared as the [**] of [binary64]. *)
Fixpoint product (x : float) (n : nat) : float :=
  match n with
  | O => PrimFloat.one
  | S n' => PrimFloat.mul x (product x n')
  end.

Definition product_pow : PyPow float :=
  fun x n =>
    let y := product x (Z.to_nat n) in
    if PrimFloat.is_finite x && PrimFloat.is_infinity y
    then Raise OverflowError
    else Return y.

(** Literals of each carrier, for concrete instances. *)
Definition f64 (z : Z) : float := lit z.
Definition rat (z : Z) : Qc := lit z.

(** ** [class SimpleKalmanFilter] *)

Module SimpleKalmanFilter.
Section Carrier.
Context {T : Type} {float_T : PyFloat T}.

(** The attributes of an instance. *)
Record t : Type := mk {
  process_noise : T;
  measurement_noise : T;
  estimate : T;
  error_estimate : T;
  initialized : bool
}.

Definition set_estimate (self : t) (v : T) : t :=
  {| process_noise := self.(process_noise);
     measurement_noise := self.(measurement_noise);
     estimate := v;
     error_estimate := self.(error_estimate);
     initialized := self.(initialized) |}.

Definition set_error_estimate (self : t) (v : T) : t :=
  {| process_noise := self.(process_noise);
     measurement_noise := self.(measurement_noise);
     estimate := self.(estimate);
     error_estimate := v;
     initialized := self.(initialized) |}.

Definition set_initialized (self : t) (b : bool) : t :=
  {| process_noise := self.(process_noise);
     measurement_noise := self.(measurement_noise);
     estimate := self.(estimate);
     error_estimate := self.(error_estimate);
     initialized := b |}.

(** [__init__(self, process_noise, measurement_noise)]: five assignments,
    no test on the arguments. *)
Definition __init__ (process_noise measurement_noise : T) : t :=
  {| process_noise := process_noise;
     measurement_noise := measurement_noise;
     estimate := lit 0;
     error_estimate := lit 1;
     initialized := false |}.

(** The call expression [SimpleKalmanFilter(process_noise, measurement_noise)]:
    [__init__] holds no [raise] and no partial operation, so the call returns
    the new instance. *)
Definition new (process_noise measurement_noise : T) : result t :=
  Return (__init__ process_noise measurement_noise).

(** The defaults of the signature,
    [process_noise = 1.0, measurement_noise = 10.0]. *)
Definition default : t := __init__ (lit 1) (lit 10).

(** [update(self, measurement)]: the instance after the call paired with the
    returned value. The only operation that can raise is the division, which
    precedes both assignments of the correction step, so a raising call leaves
    the instance as it was. *)
Definition update (self : t) (measurement : T) : result (t * T) :=
  if negb self.(initialized) then
    let self := set_estimate self measurement in
    let self := set_initialized self true in
    Return (self, self.(estimate))
  else
    let predicted_estimate := self.(estimate) in
    let predicted_error := (self.(error_estimate) + self.(process_noise))%py in
    kalman_gain <- (predicted_error / (predicted_error + self.(measurement_noise)))%py ;;
    let self :=
      set_estimate self
        (predicted_estimate + kalman_gain * (measurement - predicted_estimate))%py in
    let self :=
      set_error_estimate self ((lit 1 - kalman_gain) * predicted_error)%py in
    Return (self, self.(estimate)).

(** *** Clients of one instance *)

(** The instance after a call of [update], whether it returned or raised. *)
Definition after (self : t) (measurement : T) : t :=
  match update self measurement with
  | Return (self', _) => self'
  | Raise _ => self
  end.

(** What a call of [update] returns, or the exception it raises. *)
Definition output (self : t) (measurement : T) : result T :=
  match update self measurement with
  | Return (_, y) => Return y
  | Raise e => Raise e
  end.

(** A sequence of calls on one instance: the instance at the end, and the
    outcome of each call in turn. *)
Definition calls (self : t) (measurements : list T) : t :=
  fold_left after measurements self.

Fixpoint outputs (self : t) (measurements : list T) : list (result T) :=
  match measurements with
  | [] => []
  | m :: ms => output self m :: outputs (after self m) ms
  end.

(** The instances that construction with the given parameters followed by
    calls of [update] can produce. *)
Inductive reachable (q r : T) : t -> Prop :=
| reachable_init : reachable q r (__init__ q r)
| reachable_update (self : t) (m : T) :
    reachable q r self -> reachable q r (after self m).

(** *** The quantities of one correction step *)

(** The locals [predicted_error] and [kalman_gain] of [update], as functions
    of the instance the call starts from, and the divisor of the gain. *)
Definition predicted_error (self : t) : T :=
  (self.(error_estimate) + self.(process_noise))%py.

Definition divisor (self : t) : T :=
  (predicted_error self + self.(measurement_noise))%py.

Definition kalman_gain (self : t) : T :=
  quot (predicted_error self) (divisor self).

End Carrier.
Arguments t T : clear implicits.
End SimpleKalmanFilter.

(** ** [class PositionVelocityKalmanFilter] *)

Module PositionVelocityKalmanFilter.
Section Carrier.
Context {T : Type} {float_T : PyFloat T} {pow_T : PyPow T}.

(** [np.array] of one and of two dimensions, row by row. *)
Definition vector : Type := list T.
Definition matrix : Type := list (list T).

(** The attributes that [__init__] assigns in the part of the class that the
    source file holds. *)
Record t : Type := mk {
  dt : T;
  x : vector;
  F : matrix;
  H : matrix;
  Q : matrix;
  R : matrix
}.

(** [__init__(self, dt, process_noise, measurement_noise)]. The divisions
    are Python's, [a * b / c] being [(a * b) / c], and [**] binds tighter
    than [*]. The entries of [Q] are evaluated from left to right, row by
    row; each [self.dt ** n] may raise [OverflowError], in which case the
    construction raises. *)
Definition __init__ (dt process_noise measurement_noise : T) : result t :=
  let self_dt := dt in
  let self_x := [lit 0; lit 0] in
  let self_F := [[lit 1; self_dt]; [lit 0; lit 1]] in
  let self_H := [[lit 1; lit 0]] in
  p00 <- (self_dt ** 4)%py ;;
  q00 <- (process_noise * p00 / lit 4)%py ;;
  p01 <- (self_dt ** 3)%py ;;
  q01 <- (process_noise * p01 / lit 2)%py ;;
  p10 <- (self_dt ** 3)%py ;;
  q10 <- (process_noise * p10 / lit 2)%py ;;
  p11 <- (self_dt ** 2)%py ;;
  let q11 := (process_noise * p11)%py in
  let self_Q := [[q00; q01]; [q10; q11]] in
  let self_R := [[measurement_noise]] in
  Return {| dt := self_dt; x := self_x; F := self_F; H := self_H;
            Q := self_Q; R := self_R |}.

End Carrier.
Arguments t T : clear implicits.
End PositionVelocityKalmanFilter.

(** ** Moving average *)

Module MovingAverage.
Section Carrier.
Context {T : Type} {float_T : PyFloat T}.

(** Modelled from the spec: the moving average filter of section 4.1, whose
    class is not in the source file. State: a first-in first-out window of the
    last [N] raw values. *)
Record t : Type := mk {
  N : Z;
  window : list T
}.

(** Modelled from the spec: construction of the moving average filter, which
    section 7 requires to fail fast on a non-positive window size. *)
Definition __init__ (N : Z) : result t :=
  if (N <=? 0)%Z then Raise InvalidConfiguration
  else Return {| N := N; window := [] |}.

(** Modelled from the spec: the arithmetic mean of the window's contents
    (section 4.1), over however many samples it holds. *)
Definition total (values : list T) : T :=
  fold_left add values (lit 0).

Definition mean (values : list T) : result T :=
  (total values / lit (Z.of_nat (length values)))%py.

(** Modelled from the spec: [update(x)] of section 4.1, "push x, evict oldest
    if size > N, return arithmetic mean of current contents". *)
Definition update (self : t) (x : T) : result (t * T) :=
  let pushed := self.(window) ++ [x] in
  let kept :=
    if (self.(N) <? Z.of_nat (length pushed))%Z then tl pushed else pushed in
  y <- mean kept ;;
  Return ({| N := self.(N); window := kept |}, y).

(** The filter after a call, the outcome of a call, and sequences of calls,
    as for [SimpleKalmanFilter]. *)
Definition after (self : t) (x : T) : t :=
  match update self x with
  | Return (self', _) => self'
  | Raise _ => self
  end.

Definition output (self : t) (x : T) : result T :=
  match update self x with
  | Return (_, y) => Return y
  | Raise e => Raise e
  end.

Definition calls (self : t) (xs : list T) : t :=
  fold_left after xs self.

Fixpoint outputs (self : t) (xs : list T) : list (result T) :=
  match xs with
  | [] => []
  | x :: xs' => output self x :: outputs (after self x) xs'
  end.

End Carrier.
Arguments t T : clear implicits.
End MovingAverage.

(** Short names for the two other filters. *)
Module PV := PositionVelocityKalmanFilter.
Module MA := MovingAverage.

(** ** Statements *)

(** The wordings below are stated once, for any carrier, so that the inputs
    that refute one can be evaluated in binary64 and, without rounding, in
    exact arithmetic. *)

Section Statements.
Context (T : Type) {float_T : PyFloat T}.

Import SimpleKalmanFilter.

(** Two instances hold the same belief about the error when they agree on
    everything but the estimate. *)
Definition same_belief (s1 s2 : t T) : Prop :=
  process_noise s1 = process_noise s2 /\
  measurement_noise s1 = measurement_noise s2 /\
  error_estimate s1 = error_estimate s2 /\
  initialized s1 = initialized s2.

(** Every call of [update] on an initialized instance performs the
    predict/correct step and returns the new estimate. *)
Definition correction_always_performed : Prop :=
  forall (q r : T) (self : t T) (m : T),
    reachable q r self ->
    initialized self = true ->
    let predicted_error := (error_estimate self + q)%py in
    let K := quot predicted_error (predicted_error + r)%py in
    let e := (estimate self + K * (m - estimate self))%py in
    update self m =
      Return (mk q r e ((lit 1 - K) * predicted_error)%py true, e).

(** Whatever the noise parameters, a computed gain lies in [[0, 1]] and the
    corrected error lies between zero and the predicted error. *)
Definition gain_contract_for_every_filter : Prop :=
  forall (q r : T) (self self' : t T) (m y : T),
    reachable q r self ->
    initialized self = true ->
    update self m = Return (self', y) ->
    leb (lit 0) (kalman_gain self) = true /\
    leb (kalman_gain self) (lit 1) = true /\
    leb (lit 0) (error_estimate self') = true /\
    leb (error_estimate self') (predicted_error self) = true.

(** The next output is a function of the current estimate and the next
    measurement alone. *)
Definition markov_in_estimate : Prop :=
  forall (q r : T) (ms1 ms2 : list T) (m : T),
    estimate (calls (__init__ q r) ms1) = estimate (calls (__init__ q r) ms2) ->
    output (calls (__init__ q r) ms1) m = output (calls (__init__ q r) ms2) m.

(** Construction with a negative noise parameter raises. *)
Definition negative_noise_rejected : Prop :=
  forall q r : T,
    ltb q (lit 0) = true \/ ltb r (lit 0) = true ->
    exists e : exn, new q r = Raise e.

(** A fresh instance fed a constant returns that constant at every call. *)
Definition constant_stream_returned : Prop :=
  forall (q r c : T) (n : nat),
    outputs (__init__ q r) (repeat c n) = repeat (Return c) n.

End Statements.

Arguments correction_always_performed T {float_T}.
Arguments gain_contract_for_every_filter T {float_T}.
Arguments markov_in_estimate T {float_T}.
Arguments negative_noise_rejected T {float_T}.
Arguments constant_stream_returned T {float_T}.

(** The last [n] values of a list, all of them when it holds fewer. *)
Definition last_n {A : Type} (n : nat) (l : list A) : list A :=
  skipn (length l - n) l.


(** ** Wordings about the divisor, the model matrices and the moving
    average *)

(** With [process_noise >= 0] and [measurement_noise > 0] the divisor of the
    gain is strictly positive in every reachable state. *)
Definition divisor_always_positive (T : Type) {float_T : PyFloat T} : Prop :=
  forall (q r : T) (self : SimpleKalmanFilter.t T),
    leb (lit 0) q = true -> ltb (lit 0) r = true ->
    SimpleKalmanFilter.reachable q r self ->
    ltb (lit 0) (SimpleKalmanFilter.divisor self) = true.

Arguments divisor_always_positive T {float_T}.

(** The process noise covariance of a constructed instance is the scalar
    [q] times the matrix [[[dt^4/4, dt^3/2], [dt^3/2, dt^2]]]. *)
Definition model_matrices_as_claimed
    (T : Type) {float_T : PyFloat T} {pow_T : PyPow T} : Prop :=
  forall (dt q r p4 p3 p2 : T) (self : PV.t T),
    pow dt 4 = Return p4 -> pow dt 3 = Return p3 -> pow dt 2 = Return p2 ->
    PV.__init__ dt q r = Return self ->
    PV.F self = [[lit 1; dt]; [lit 0; lit 1]] /\
    PV.H self = [[lit 1; lit 0]] /\
    PV.Q self = map (map (mul q))
                    [[quot p4 (lit 4); quot p3 (lit 2)];
                     [quot p3 (lit 2); p2]] /\
    PV.R self = [[r]].

Arguments model_matrices_as_claimed T {float_T pow_T}.

(** After any history, the last of [N] identical values [c] returns a value
    equal to [c]. *)
Definition identical_values_returned (T : Type) {float_T : PyFloat T} : Prop :=
  forall (N : Z) (self : MA.t T) (h : list T) (c : T),
    MA.__init__ N = Return self ->
    exists y : T,
      nth_error (MA.outputs self (h ++ repeat c (Z.to_nat N)))
                (length h + Z.to_nat N - 1) = Some (Return y) /\
      eqb y c = true.

Arguments identical_values_returned T {float_T}.

(** In a stream that is [c] everywhere but for one value [v], every output of
    the moving average from the outlier's step on is within [|v - c| / N] of
    [c]. *)
Definition outlier_bounded_at_every_step : Prop :=
  forall (N : Z) (self : MA.t float) (a b i : nat) (c v y : float),
    MA.__init__ N = Return self ->
    (a <= i)%nat ->
    nth_error (MA.outputs self (repeat c a ++ v :: repeat c b)) i
      = Some (Return y) ->
    PrimFloat.leb (PrimFloat.abs (PrimFloat.sub y c))
                  (PrimFloat.div (PrimFloat.abs (PrimFloat.sub v c)) (f64 N))
      = true.

(** The window of the moving average at a step of the stream
    [c, ..., c, v, c, ...]: [j] values have followed the outlier [v], and the
    window holds [n] values. *)
Definition window_with_outlier {A : Type} (n j : nat) (c v : A) : list A :=
  if (j <? n)%nat then repeat c (n - 1 - j) ++ v :: repeat c j
  else repeat c n.

(** ** The specification of binary64 rounding *)

(** The rounded operations of [SpecFloat] shift a mantissa to the right,
    recording the bits that fall off. A record is exact when no set bit
    fell off. *)
Definition shr_exact (mrs : shr_record) : bool :=
  negb (shr_r mrs) && negb (shr_s mrs).

Definition loc_exact (l : location) : bool :=
  match l with loc_Exact => true | _ => false end.

(** The number of positions by which rounding shifts the mantissa [m] given
    at exponent [e]. *)
Definition shift_of (m e : Z) : Z :=
  Z.max (fexp prec emax (Zdigits2 m + e) - e) 0.

(** The float made of a rounded, non-negative mantissa. *)
Definition finish (m e : Z) : spec_float :=
  match m with
  | Z0 => S754_zero false
  | Zpos p => if (e <=? emax - prec)%Z then S754_finite false p e
              else S754_infinity false
  | Zneg _ => S754_nan
  end.

(** [above mv ev m e]: the value [m * 2 ^ e] is at least [mv * 2 ^ ev],
    [mv] holding 53 bits or [ev] being the least exponent. *)
Definition above (mv : positive) (ev m e : Z) : Prop :=
  (e <= ev /\ Z.pos mv * 2 ^ (ev - e) <= m)%Z \/ (ev < e /\ 2 ^ 52 <= m)%Z.

(** Classes of values: zero of either sign, [+inf] or a positive number;
    one of these or NaN; a zero or a finite number; a zero. *)
Definition sf_nonneg (x : spec_float) : bool :=
  match x with
  | S754_zero _ | S754_infinity false | S754_finite false _ _ => true
  | _ => false
  end.

Definition sf_nn (x : spec_float) : bool :=
  match x with S754_nan => true | _ => sf_nonneg x end.

Definition sf_finite (x : spec_float) : bool :=
  match x with S754_zero _ | S754_finite _ _ _ => true | _ => false end.

Definition sf_zero (x : spec_float) : bool :=
  match x with S754_zero _ => true | _ => false end.

(** [1.0]. *)
Definition sf_one : spec_float := S754_finite false 4503599627370496 (-52).

Definition sf_is_nan (x : spec_float) : bool :=
  match x with S754_nan => true | _ => false end.
(** * Properties of [SimpleKalmanFilter], for every carrier *)

Import SimpleKalmanFilter.

Section Simple_kalman_structure.
Context {T : Type} {float_T : PyFloat T}.

Implicit Types (self : t T) (m q r : T).

(** The first branch of [update]. *)
Lemma update_uninitialized self m :
  initialized self = false ->
  update self m =
    Return (mk (process_noise self) (measurement_noise self) m
               (error_estimate self) true, m).
Proof.
  intros Hinit. unfold update. rewrite Hinit. reflexivity.
Qed.

(** The second branch of [update], in terms of the quantities of the step. *)
Lemma update_initialized self m :
  initialized self = true ->
  update self m =
    if eqb (divisor self) (lit 0) then Raise ZeroDivisionError
    else
      let e := (estimate self + kalman_gain self * (m - estimate self))%py in
      Return (mk (process_noise self) (measurement_noise self) e
                 ((lit 1 - kalman_gain self) * predicted_error self)%py true, e).
Proof.
  intros Hinit. unfold update, truediv, kalman_gain, divisor, predicted_error.
  rewrite Hinit. cbn [negb bind].
  destruct (eqb _ (lit 0)); cbn [bind]; [reflexivity|].
  unfold set_error_estimate, set_estimate. cbn. rewrite Hinit. reflexivity.
Qed.

(** A call never touches the two noise parameters. *)
Lemma after_parameters self m :
  process_noise (after self m) = process_noise self /\
  measurement_noise (after self m) = measurement_noise self.
Proof.
  unfold after. destruct (initialized self) eqn:Hinit.
  - rewrite (update_initialized _ _ Hinit).
    destruct (eqb _ _); cbn; split; reflexivity.
  - rewrite (update_uninitialized _ _ Hinit). cbn. split; reflexivity.
Qed.

Lemma reachable_parameters q r self :
  reachable q r self ->
  process_noise self = q /\ measurement_noise self = r.
Proof.
  induction 1 as [|self m _ [IHq IHr]]; [split; reflexivity|].
  destruct (after_parameters self m) as [-> ->]. split; assumption.
Qed.

Lemma calls_snoc self (ms : list T) m :
  calls self (ms ++ [m]) = after (calls self ms) m.
Proof. unfold calls. rewrite fold_left_app. reflexivity. Qed.

Lemma calls_reachable q r (ms : list T) :
  reachable q r (calls (__init__ q r) ms).
Proof.
  induction ms as [|m ms IH] using rev_ind.
  - constructor.
  - rewrite calls_snoc. constructor. exact IH.
Qed.

(** *** The part of the state that the measurements never reach *)

Lemma same_belief_refl self : same_belief self self.
Proof. repeat split. Qed.

Lemma after_same_belief (s1 s2 : t T) (m1 m2 : T) :
  same_belief s1 s2 -> same_belief (after s1 m1) (after s2 m2).
Proof.
  intros (Hq & Hr & Hp & Hi). unfold after.
  destruct (initialized s1) eqn:H1; symmetry in Hi.
  - rewrite (update_initialized _ _ H1), (update_initialized _ _ Hi).
    unfold kalman_gain, divisor, predicted_error.
    rewrite <- Hq, <- Hr, <- Hp.
    destruct (eqb _ _); unfold same_belief; cbn; repeat split; congruence.
  - rewrite (update_uninitialized _ _ H1), (update_uninitialized _ _ Hi).
    unfold same_belief; cbn. repeat split; congruence.
Qed.

Lemma calls_same_belief (ms1 ms2 : list T) :
  length ms1 = length ms2 ->
  forall s1 s2 : t T,
    same_belief s1 s2 -> same_belief (calls s1 ms1) (calls s2 ms2).
Proof.
  revert ms2. induction ms1 as [|m1 ms1 IH]; intros [|m2 ms2] Hlen s1 s2 Hs;
    try discriminate; cbn.
  - exact Hs.
  - apply IH; [now injection Hlen | now apply after_same_belief].
Qed.

(** Two instances that agree on every attribute are the same instance. *)
Lemma same_belief_same_estimate (s1 s2 : t T) :
  same_belief s1 s2 -> estimate s1 = estimate s2 -> s1 = s2.
Proof.
  destruct s1, s2. unfold same_belief. cbn.
  intros (Hq & Hr & Hp & Hi) He. congruence.
Qed.

End Simple_kalman_structure.

(** ** The claims that hold for every carrier *)

Section Simple_kalman_claims.
Context {T : Type} {float_T : PyFloat T}.

(** C6. On an instance on which [update] was never called, [update(m)]
    stores [m] as the estimate, leaves the error estimate at the [1.0] of
    construction, marks the instance initialized and returns [m]; no division
    takes place, whatever the noise parameters. *)
Theorem first_update_adopts_measurement :
  forall q r m : T,
    update (__init__ q r) m = Return (mk q r m (lit 1) true, m).
Proof.
  intros q r m. rewrite update_uninitialized by reflexivity.
  unfold __init__. cbn. reflexivity.
Qed.

(** C1, amended. On an initialized instance with state [(e, p)], [update(m)]
    computes [predicted_error = p + Q] and tests the divisor
    [predicted_error + R]: when it is not zero the call sets the estimate to
    [e + K * (m - e)] with [K = predicted_error / (predicted_error + R)], the
    error estimate to [(1 - K) * predicted_error], keeps the parameters and
    returns the new estimate; when it is zero the call raises
    [ZeroDivisionError]. *)
Theorem update_correction_step :
  forall (self : t T) (m : T),
    initialized self = true ->
    let predicted_error := (error_estimate self + process_noise self)%py in
    let d := (predicted_error + measurement_noise self)%py in
    let K := quot predicted_error d in
    (eqb d (lit 0) = false ->
       exists self' : t T,
         update self m = Return (self', estimate self') /\
         estimate self' = (estimate self + K * (m - estimate self))%py /\
         error_estimate self' = ((lit 1 - K) * predicted_error)%py /\
         process_noise self' = process_noise self /\
         measurement_noise self' = measurement_noise self /\
         initialized self' = true) /\
    (eqb d (lit 0) = true -> update self m = Raise ZeroDivisionError).
Proof.
  intros self m Hinit pe d K.
  rewrite (update_initialized _ _ Hinit).
  unfold kalman_gain, divisor, SimpleKalmanFilter.predicted_error.
  fold pe. fold d. fold K.
  split; intros ->.
  - exists (mk (process_noise self) (measurement_noise self)
               (estimate self + K * (m - estimate self))%py
               ((lit 1 - K) * pe)%py true).
    cbn. repeat split; reflexivity.
  - reflexivity.
Qed.

(** C4, amended. [SimpleKalmanFilter(process_noise, measurement_noise)]
    checks nothing: for all arguments, negative ones included, it returns an
    instance holding them as given, with estimate [0.0], error estimate [1.0],
    not initialized. *)
Theorem construction_accepts_all :
  forall q r : T,
    new q r = Return (mk q r (lit 0) (lit 1) false).
Proof.
  intros q r. unfold new, __init__. f_equal.
Qed.

(** C10. Two instances built with the same parameters have, after the same
    number [k] of calls of [update], the same error estimate, whatever the
    measurements were. *)
Theorem error_estimate_ignores_measurements :
  forall (q r : T) (k : nat) (ms1 ms2 : list T),
    length ms1 = k -> length ms2 = k ->
    error_estimate (calls (__init__ q r) ms1)
      = error_estimate (calls (__init__ q r) ms2).
Proof.
  intros q r k ms1 ms2 H1 H2.
  assert (Hlen : length ms1 = length ms2) by congruence.
  destruct (calls_same_belief ms1 ms2 Hlen (same_belief_refl (__init__ q r)))
    as (_ & _ & Hp & _).
  exact Hp.
Qed.

(** C3, amended. Two instances built with the same parameters that have
    received the same number of calls and hold the same estimate answer the
    same next measurement alike: same outcome, same instance afterwards. *)
Theorem markov_given_same_length :
  forall (q r : T) (ms1 ms2 : list T) (m : T),
    length ms1 = length ms2 ->
    estimate (calls (__init__ q r) ms1) = estimate (calls (__init__ q r) ms2) ->
    output (calls (__init__ q r) ms1) m = output (calls (__init__ q r) ms2) m /\
    after (calls (__init__ q r) ms1) m = after (calls (__init__ q r) ms2) m.
Proof.
  intros q r ms1 ms2 m Hlen He.
  pose proof (calls_same_belief ms1 ms2 Hlen (same_belief_refl (__init__ q r))) as Hb.
  rewrite (same_belief_same_estimate Hb He). split; reflexivity.
Qed.

End Simple_kalman_claims.

(** ** Instances of the claims above, and the inputs on which the original
    wordings fail *)

(** With [Q = 1.0], [R = 10.0], after [update(0.0)] the call [update(12.0)]
    has divisor [12.0], gain [1/6] and moves the estimate to [2.0]. *)
Lemma update_correction_step_witness :
  initialized (calls default [f64 0]) = true /\
  exists self' : t float,
    update (calls default [f64 0]) (f64 12) = Return (self', estimate self') /\
    estimate self' = f64 2 /\
    error_estimate self' = ((f64 1 - PrimFloat.div (f64 2) (f64 12)) * f64 2)%py /\
    process_noise self' = f64 1 /\
    measurement_noise self' = f64 10 /\
    initialized self' = true.
Proof.
  split; [reflexivity|].
  exact (proj1 (update_correction_step (calls default [f64 0]) (f64 12) eq_refl)
               eq_refl).
Defined.

(** C1 as worded fails: with [Q = R = 0.0] the instance reached by
    [update(0.0); update(0.0)] is initialized with error estimate [0.0], and
    the next call divides by [0.0 + 0.0 + 0.0]. *)
Lemma correction_can_raise :
  ~ correction_always_performed Qc /\ ~ correction_always_performed float.
Proof.
  split; intros Hclaim.
  - pose proof (Hclaim (rat 0) (rat 0) (calls (__init__ (rat 0) (rat 0)) [rat 0; rat 0])
                  (rat 0) (calls_reachable _ _ _)) as Hret.
    assert (Hraise : update (calls (__init__ (rat 0) (rat 0)) [rat 0; rat 0]) (rat 0)
                     = Raise ZeroDivisionError) by (vm_compute; reflexivity).
    cbv zeta in Hret. rewrite Hraise in Hret.
    assert (Hinit : initialized (calls (__init__ (rat 0) (rat 0)) [rat 0; rat 0]) = true)
      by (vm_compute; reflexivity).
    specialize (Hret Hinit). discriminate Hret.
  - pose proof (Hclaim (f64 0) (f64 0) (calls (__init__ (f64 0) (f64 0)) [f64 0; f64 0])
                  (f64 0) (calls_reachable _ _ _) eq_refl) as Hret.
    assert (Hraise : update (calls (__init__ (f64 0) (f64 0)) [f64 0; f64 0]) (f64 0)
                     = Raise ZeroDivisionError) by (vm_compute; reflexivity).
    cbv zeta in Hret. rewrite Hraise in Hret. discriminate Hret.
Qed.

(** C4 as worded fails: [SimpleKalmanFilter(-1.0, -1.0)] returns an
    instance. *)
Lemma negative_noise_accepted :
  ~ negative_noise_rejected Qc /\ ~ negative_noise_rejected float.
Proof.
  split; intros Hclaim.
  - destruct (Hclaim (rat (-1)) (rat (-1))) as [e He].
    + left. vm_compute. reflexivity.
    + discriminate He.
  - destruct (Hclaim (f64 (-1)) (f64 (-1))) as [e He].
    + left. vm_compute. reflexivity.
    + discriminate He.
Qed.

(** After two calls the error estimate is the same for the measurements
    [0.0, 0.0] and [5.0, 7.0]. *)
Lemma error_estimate_ignores_measurements_witness :
  length [f64 0; f64 0] = 2%nat /\ length [f64 5; f64 7] = 2%nat /\
  error_estimate (calls default [f64 0; f64 0])
    = error_estimate (calls default [f64 5; f64 7]).
Proof.
  split; [reflexivity|]. split; [reflexivity|].
  exact (error_estimate_ignores_measurements (f64 1) (f64 10)
           [f64 0; f64 0] [f64 5; f64 7] eq_refl eq_refl).
Defined.

(** With [Q = 1.0], [R = 2.0] the histories [0.0, 2.0] and [1.0, 1.0] both
    lead to the estimate [1.0] in two calls, and answer [3.0] alike. *)
Lemma markov_given_same_length_witness :
  length [f64 0; f64 2] = length [f64 1; f64 1] /\
  estimate (calls (__init__ (f64 1) (f64 2)) [f64 0; f64 2])
    = estimate (calls (__init__ (f64 1) (f64 2)) [f64 1; f64 1]) /\
  output (calls (__init__ (f64 1) (f64 2)) [f64 0; f64 2]) (f64 3)
    = output (calls (__init__ (f64 1) (f64 2)) [f64 1; f64 1]) (f64 3) /\
  after (calls (__init__ (f64 1) (f64 2)) [f64 0; f64 2]) (f64 3)
    = after (calls (__init__ (f64 1) (f64 2)) [f64 1; f64 1]) (f64 3).
Proof.
  assert (He : estimate (calls (__init__ (f64 1) (f64 2)) [f64 0; f64 2])
               = estimate (calls (__init__ (f64 1) (f64 2)) [f64 1; f64 1]))
    by (vm_compute; reflexivity).
  split; [reflexivity|]. split; [exact He|].
  exact (markov_given_same_length (f64 1) (f64 2) [f64 0; f64 2] [f64 1; f64 1]
           (f64 3) eq_refl He).
Defined.

(** C3 as worded fails: with [Q = 1.0], [R = 10.0] the histories [0.0] and
    [0.0, 0.0] both lead to the estimate [0.0], with error estimates [1] and
    [5/3]; the measurement [12.0] then gives [2.0] after the first and
    [48/19] after the second. *)
Lemma markov_in_estimate_fails :
  ~ markov_in_estimate Qc /\ ~ markov_in_estimate float.
Proof.
  split; intros Hclaim.
  - pose proof (Hclaim (rat 1) (rat 10) [rat 0] [rat 0; rat 0] (rat 12)) as Hout.
    assert (Hne : eqb (returned_or (rat 0) (output (calls (__init__ (rat 1) (rat 10)) [rat 0]) (rat 12)))
                      (returned_or (rat 0) (output (calls (__init__ (rat 1) (rat 10)) [rat 0; rat 0]) (rat 12)))
                  = false) by (vm_compute; reflexivity).
    rewrite Hout in Hne.
    + vm_compute in Hne. discriminate Hne.
    + apply Qc_is_canon. vm_compute. reflexivity.
  - assert (He : estimate (calls (__init__ (f64 1) (f64 10)) [f64 0])
                 = estimate (calls (__init__ (f64 1) (f64 10)) [f64 0; f64 0]))
      by (vm_compute; reflexivity).
    pose proof (Hclaim (f64 1) (f64 10) [f64 0] [f64 0; f64 0] (f64 12) He) as Hout.
    assert (Hne : eqb (returned_or (f64 0) (output (calls (__init__ (f64 1) (f64 10)) [f64 0]) (f64 12)))
                      (returned_or (f64 0) (output (calls (__init__ (f64 1) (f64 10)) [f64 0; f64 0]) (f64 12)))
                  = false) by (vm_compute; reflexivity).
    rewrite Hout in Hne. vm_compute in Hne. discriminate Hne.
Qed.

(** * Further properties of [SimpleKalmanFilter.update] *)

(** ** For every carrier *)

Section Simple_kalman_frame.
Context {T : Type} {float_T : PyFloat T}.

Implicit Types (self : t T) (m : T).

Lemma after_sets_initialized self m : initialized (after self m) = true.
Proof.
  unfold after. destruct (initialized self) eqn:Hinit.
  - rewrite (update_initialized _ _ Hinit).
    destruct (eqb _ _); cbn; [assumption | reflexivity].
  - rewrite (update_uninitialized _ _ Hinit). reflexivity.
Qed.

(** A call raises exactly when the instance is initialized and the divisor
    of the gain compares equal to zero. *)
Lemma update_raises_iff self m (e : exn) :
  update self m = Raise e <->
  e = ZeroDivisionError /\ initialized self = true /\
  eqb (divisor self) (lit 0) = true.
Proof.
  destruct (initialized self) eqn:Hinit.
  - rewrite (update_initialized _ _ Hinit).
    destruct (eqb (divisor self) (lit 0)); cbv zeta; split.
    + intros [= <-]. repeat split.
    + intros (-> & _ & _). reflexivity.
    + discriminate.
    + intros (_ & _ & Hd). discriminate Hd.
  - rewrite (update_uninitialized _ _ Hinit). split.
    + discriminate.
    + intros (_ & Hi & _). discriminate Hi.
Qed.

(** X1. [update] never assigns the noise parameters: after any sequence of
    calls, raising ones included, they are those given at construction. *)
Theorem noise_parameters_never_change :
  forall (q r : T) (ms : list T),
    process_noise (calls (__init__ q r) ms) = q /\
    measurement_noise (calls (__init__ q r) ms) = r.
Proof.
  intros q r ms. induction ms as [|m ms [IHq IHr]] using rev_ind.
  - split; reflexivity.
  - rewrite calls_snoc.
    destruct (after_parameters (calls (__init__ q r) ms) m) as [-> ->].
    split; assumption.
Qed.

(** X2. The branch that adopts the measurement is taken at most once: after
    one call or more, on any instance, [initialized] is true, and it never
    goes back to false. *)
Theorem initialized_after_first_call :
  forall (self : t T) (ms : list T),
    ms <> [] -> initialized (calls self ms) = true.
Proof.
  intros self ms. destruct ms as [|m ms _] using rev_ind; [congruence|].
  intros _. rewrite calls_snoc. apply after_sets_initialized.
Qed.

(** X3. A raising call changes nothing and the failure is permanent: when
    [update] raises, the exception is [ZeroDivisionError], the instance is
    left as it was by that call and by any later ones, and every later call
    raises too, whatever the measurement. *)
Theorem raise_is_permanent :
  forall (self : t T) (m : T) (e : exn),
    update self m = Raise e ->
    e = ZeroDivisionError /\
    forall (ms : list T) (m' : T),
      calls self ms = self /\
      update (calls self ms) m' = Raise ZeroDivisionError.
Proof.
  intros self m e Hraise.
  apply update_raises_iff in Hraise. destruct Hraise as (-> & Hinit & Hd).
  split; [reflexivity|].
  assert (Hany : forall m', update self m' = Raise ZeroDivisionError).
  { intros m'. apply update_raises_iff. repeat split; assumption. }
  assert (Hcalls : forall ms, calls self ms = self).
  { induction ms as [|m0 ms IH]; [reflexivity|].
    change (calls self (m0 :: ms)) with (calls (after self m0) ms).
    unfold after. rewrite Hany. exact IH. }
  intros ms m'. rewrite Hcalls. split; [reflexivity | apply Hany].
Qed.

End Simple_kalman_frame.

(** After one call the default filter is initialized. *)
Lemma initialized_after_first_call_witness :
  [f64 3] <> [] /\ initialized (calls default [f64 3]) = true.
Proof.
  assert (Hne : [f64 3] <> []) by discriminate.
  split; [exact Hne|].
  exact (initialized_after_first_call default Hne).
Defined.

(** With [Q = R = 0.0], the third call of the stream [0.0, 0.0, 0.0] raises;
    so does the call [update(7.0)] after two more attempts. *)
Lemma raise_is_permanent_witness :
  update (calls (__init__ (f64 0) (f64 0)) [f64 0; f64 0]) (f64 0)
    = Raise ZeroDivisionError /\
  calls (calls (__init__ (f64 0) (f64 0)) [f64 0; f64 0]) [f64 5; f64 6]
    = calls (__init__ (f64 0) (f64 0)) [f64 0; f64 0] /\
  update (calls (calls (__init__ (f64 0) (f64 0)) [f64 0; f64 0]) [f64 5; f64 6])
         (f64 7)
    = Raise ZeroDivisionError.
Proof.
  assert (Hraise : update (calls (__init__ (f64 0) (f64 0)) [f64 0; f64 0]) (f64 0)
                   = Raise ZeroDivisionError) by (vm_compute; reflexivity).
  split; [exact Hraise|].
  exact (proj2 (raise_is_permanent _ _ Hraise) [f64 5; f64 6] (f64 7)).
Defined.
(** * Binary64 arithmetic

    Bounds on the rounded operations, from their specification in
    [SpecFloat]. *)

Section Binary64_rounding.

Local Unset Implicit Arguments.
Local Open Scope Z_scope.

(** ** Shifts with sticky bits *)

Lemma iter_pos_nat {A : Type} (f : A -> A) (p : positive) :
  forall x, iter_pos f p x = Nat.iter (Pos.to_nat p) f x.
Proof.
  induction p as [p IH|p IH|]; intros x; cbn [iter_pos].
  - rewrite !IH, Pos2Nat.inj_xI.
    replace (2 * Pos.to_nat p)%nat with (Pos.to_nat p + Pos.to_nat p)%nat by lia.
    rewrite Nat.iter_succ_r, Nat.iter_add. reflexivity.
  - rewrite !IH, Pos2Nat.inj_xO.
    replace (2 * Pos.to_nat p)%nat with (Pos.to_nat p + Pos.to_nat p)%nat by lia.
    rewrite Nat.iter_add. reflexivity.
  - reflexivity.
Qed.

Lemma shr_1_spec (mrs : shr_record) :
  0 <= shr_m mrs ->
  shr_m (shr_1 mrs) = shr_m mrs / 2 /\
  shr_exact (shr_1 mrs) = shr_exact mrs && (shr_m mrs mod 2 =? 0).
Proof.
  destruct mrs as [m r s]. cbn [shr_m]. intros Hm.
  destruct m as [|[p|p|]|p]; try lia; cbn [shr_1 shr_m shr_exact shr_r shr_s].
  - split; [reflexivity|]. cbn. destruct r, s; reflexivity.
  - split.
    + rewrite Pos2Z.inj_xI. apply Z.div_unique with (r := 1); lia.
    + replace (Z.pos p~1 mod 2) with 1.
      * cbn. now rewrite andb_false_r.
      * rewrite Pos2Z.inj_xI. apply Z.mod_unique with (q := Z.pos p); lia.
  - split.
    + rewrite Pos2Z.inj_xO. apply Z.div_unique with (r := 0); lia.
    + replace (Z.pos p~0 mod 2) with 0.
      * cbn. destruct r, s; reflexivity.
      * rewrite Pos2Z.inj_xO. apply Z.mod_unique with (q := Z.pos p); lia.
  - split; [reflexivity|]. cbn. now rewrite andb_false_r.
Qed.

Lemma shr_iter_spec (n : nat) (mrs : shr_record) :
  0 <= shr_m mrs ->
  shr_m (Nat.iter n shr_1 mrs) = shr_m mrs / 2 ^ Z.of_nat n /\
  shr_exact (Nat.iter n shr_1 mrs)
  = shr_exact mrs && (shr_m mrs mod 2 ^ Z.of_nat n =? 0).
Proof.
  intros Hm. induction n as [|n [IHm IHe]].
  - change (Nat.iter 0 shr_1 mrs) with mrs. change (2 ^ Z.of_nat 0) with 1.
    rewrite Z.div_1_r, Z.mod_1_r. cbn. now rewrite andb_true_r.
  - rewrite Nat.iter_succ.
    assert (Hpos : 0 <= shr_m (Nat.iter n shr_1 mrs)).
    { rewrite IHm. apply Z.div_pos; lia. }
    destruct (shr_1_spec _ Hpos) as [Em Ee].
    rewrite Em, Ee, IHm, IHe.
    rewrite Nat2Z.inj_succ, Z.pow_succ_r by lia.
    set (k := 2 ^ Z.of_nat n). assert (Hk : 0 < k) by (unfold k; lia).
    split.
    + rewrite Z.div_div by lia. f_equal. lia.
    + rewrite <- andb_assoc. f_equal.
      pose proof (Z.div_mod (shr_m mrs) k ltac:(lia)) as Hdm.
      pose proof (Z.mod_pos_bound (shr_m mrs) k Hk) as Hb1.
      pose proof (Z.div_mod (shr_m mrs / k) 2 ltac:(lia)) as Hdm2.
      pose proof (Z.mod_pos_bound (shr_m mrs / k) 2 ltac:(lia)) as Hb2.
      assert (Hmod : shr_m mrs mod (2 * k)
                     = k * ((shr_m mrs / k) mod 2) + shr_m mrs mod k).
      { symmetry. apply Z.mod_unique with (q := shr_m mrs / k / 2); nia. }
      rewrite Hmod.
      destruct (Z.eqb_spec (shr_m mrs mod k) 0) as [E0|N0];
        destruct (Z.eqb_spec ((shr_m mrs / k) mod 2) 0) as [E1|N1]; cbn;
        symmetry; apply Z.eqb_eq || apply Z.eqb_neq; nia.
Qed.

Lemma shr_spec (mrs : shr_record) (e n : Z) :
  0 <= shr_m mrs ->
  let '(mrs', e') := shr mrs e n in
  e' = e + Z.max n 0 /\
  shr_m mrs' = shr_m mrs / 2 ^ Z.max n 0 /\
  shr_exact mrs' = shr_exact mrs && (shr_m mrs mod 2 ^ Z.max n 0 =? 0).
Proof.
  intros Hm. destruct n as [|p|p]; cbn [shr].
  - cbn. rewrite Z.div_1_r, Z.mod_1_r, andb_true_r. repeat split. lia.
  - rewrite iter_pos_nat.
    destruct (shr_iter_spec (Pos.to_nat p) mrs Hm) as [Em Ee].
    rewrite positive_nat_Z in Em, Ee.
    replace (Z.max (Z.pos p) 0) with (Z.pos p) by lia.
    repeat split; assumption.
  - cbn. rewrite Z.div_1_r, Z.mod_1_r, andb_true_r. repeat split. lia.
Qed.

(** ** Digits and the canonical exponent of binary64 *)

Lemma fexp_eq (e : Z) : fexp prec emax e = Z.max (e - 53) (-1074).
Proof. reflexivity. Qed.

Lemma digits2_pos_bounds (p : positive) :
  2 ^ (Z.pos (digits2_pos p) - 1) <= Z.pos p < 2 ^ Z.pos (digits2_pos p).
Proof.
  induction p as [p IH|p IH|]; cbn [digits2_pos].
  - rewrite Pos2Z.inj_succ.
    replace (Z.succ (Z.pos (digits2_pos p)) - 1)
      with (Z.succ (Z.pos (digits2_pos p) - 1)) by lia.
    rewrite !Z.pow_succ_r by lia. lia.
  - rewrite Pos2Z.inj_succ.
    replace (Z.succ (Z.pos (digits2_pos p)) - 1)
      with (Z.succ (Z.pos (digits2_pos p) - 1)) by lia.
    rewrite !Z.pow_succ_r by lia. lia.
  - cbn. lia.
Qed.

Lemma Zdigits2_nonneg (m : Z) : 0 <= Zdigits2 m.
Proof. destruct m; cbn; lia. Qed.

Lemma Zdigits2_upper (m : Z) : 0 <= m -> m < 2 ^ Zdigits2 m.
Proof.
  destruct m as [|p|p]; intros Hm; try lia.
  - cbn. lia.
  - apply digits2_pos_bounds.
Qed.

Lemma Zdigits2_lower (m : Z) : 0 < m -> 2 ^ (Zdigits2 m - 1) <= m.
Proof.
  destruct m as [|p|p]; intros Hm; try lia. apply digits2_pos_bounds.
Qed.

Lemma pow2_pos (k : Z) : 0 <= k -> 0 < 2 ^ k.
Proof. intros Hk. apply Z.pow_pos_nonneg; lia. Qed.

Lemma pow2_split (a b : Z) : 0 <= a -> 0 <= b -> 2 ^ (a + b) = 2 ^ a * 2 ^ b.
Proof. intros Ha Hb. apply Z.pow_add_r; assumption. Qed.

Lemma pow2_le (a b : Z) : 0 <= a <= b -> 2 ^ a <= 2 ^ b.
Proof. intros H. apply Z.pow_le_mono_r; lia. Qed.

Lemma pow2_lt_inv (a b : Z) : 0 <= b -> 2 ^ a < 2 ^ b -> a < b.
Proof. intros Hb H. apply (Z.pow_lt_mono_r_iff 2); lia. Qed.

(** A positive value below [mv * 2 ^ k] has at most [digits mv + k] digits. *)
Lemma Zdigits2_le (m k : Z) (mv : positive) :
  0 <= m -> 0 <= k -> m <= Z.pos mv * 2 ^ k ->
  Zdigits2 m <= Z.pos (digits2_pos mv) + k.
Proof.
  intros Hm Hk Hle.
  destruct (Z.eq_dec m 0) as [->|Hnz].
  { change (Zdigits2 0) with 0. lia. }
  assert (Hmpos : 0 < m) by lia.
  pose proof (Zdigits2_lower m Hmpos) as Hlo.
  pose proof (digits2_pos_bounds mv) as [_ Hup].
  pose proof (pow2_pos k Hk) as Hk2.
  assert (H : 2 ^ (Zdigits2 m - 1) < 2 ^ (Z.pos (digits2_pos mv) + k)).
  { rewrite pow2_split by lia. nia. }
  apply pow2_lt_inv in H; lia.
Qed.

(** ** One truncation step of the rounding procedure *)

Lemma shr_record_of_loc_m (m : Z) (l : location) :
  shr_m (shr_record_of_loc m l) = m.
Proof. destruct l as [|[]]; reflexivity. Qed.

Lemma shr_record_of_loc_exact (m : Z) (l : location) :
  shr_exact (shr_record_of_loc m l) = loc_exact l.
Proof. destruct l as [|[]]; reflexivity. Qed.

Lemma shr_fexp_spec (m e : Z) (l : location) :
  0 <= m ->
  let '(mrs', e') := shr_fexp prec emax m e l in
  e' = e + shift_of m e /\
  shr_m mrs' = m / 2 ^ shift_of m e /\
  shr_exact mrs' = loc_exact l && (m mod 2 ^ shift_of m e =? 0).
Proof.
  intros Hm. unfold shr_fexp, shift_of.
  pose proof (shr_spec (shr_record_of_loc m l) e
                (fexp prec emax (Zdigits2 m + e) - e)) as H.
  rewrite shr_record_of_loc_m, shr_record_of_loc_exact in H.
  apply H. exact Hm.
Qed.

Lemma round_nearest_even_bounds (mrs : shr_record) :
  shr_m mrs <= round_nearest_even (shr_m mrs) (loc_of_shr_record mrs)
            <= shr_m mrs + 1 /\
  (shr_exact mrs = true ->
   round_nearest_even (shr_m mrs) (loc_of_shr_record mrs) = shr_m mrs).
Proof.
  destruct mrs as [m [|] [|]]; cbn; try destruct (Z.even m); split;
    try lia; try discriminate; reflexivity.
Qed.

Lemma binary_round_aux_spec (mx ex : Z) (lx : location) :
  0 <= mx ->
  exists mr : Z,
    mx / 2 ^ shift_of mx ex <= mr <= mx / 2 ^ shift_of mx ex + 1 /\
    (loc_exact lx = true -> mx mod 2 ^ shift_of mx ex = 0 ->
     mr = mx / 2 ^ shift_of mx ex) /\
    binary_round_aux prec emax false mx ex lx
    = finish (mr / 2 ^ shift_of mr (ex + shift_of mx ex))
             (ex + shift_of mx ex + shift_of mr (ex + shift_of mx ex)).
Proof.
  intros Hmx. unfold binary_round_aux.
  pose proof (shr_fexp_spec mx ex lx Hmx) as H1.
  destruct (shr_fexp prec emax mx ex lx) as [mrs' e'].
  destruct H1 as (-> & Em & Ee).
  pose proof (round_nearest_even_bounds mrs') as [Hb Hex].
  set (mr := round_nearest_even (shr_m mrs') (loc_of_shr_record mrs')) in *.
  assert (Hmt : 0 <= mx / 2 ^ shift_of mx ex).
  { apply Z.div_pos; [lia|]. apply pow2_pos. unfold shift_of. lia. }
  assert (Hmr : 0 <= mr) by lia.
  pose proof (shr_fexp_spec mr (ex + shift_of mx ex) loc_Exact Hmr) as H2.
  destruct (shr_fexp prec emax mr (ex + shift_of mx ex) loc_Exact) as [mrs'' e''].
  destruct H2 as (-> & Em2 & _).
  exists mr. split; [lia|]. split.
  - intros Hl Hmod. rewrite <- Em. apply Hex. rewrite Ee, Hl, Hmod. reflexivity.
  - rewrite Em2. reflexivity.
Qed.

(** ** Bounds on a rounded value *)

Lemma bounded_inv (mv : positive) (ev : Z) :
  bounded prec emax mv ev = true ->
  Z.max (Z.pos (digits2_pos mv) + ev - 53) (-1074) = ev /\ ev <= 971.
Proof.
  unfold bounded, canonical_mantissa. rewrite fexp_eq.
  intros H. apply andb_true_iff in H as [H1 H2].
  apply Z.eqb_eq in H1. apply Z.leb_le in H2.
  change (emax - prec) with 971 in H2. split; assumption.
Qed.

Lemma shift_of_eq (m e : Z) :
  shift_of m e = Z.max (Z.max (Zdigits2 m + e - 53) (-1074) - e) 0.
Proof. reflexivity. Qed.

Lemma trunc_upper (m e ev : Z) (mv : positive) :
  0 <= m -> e <= ev -> bounded prec emax mv ev = true ->
  m <= Z.pos mv * 2 ^ (ev - e) ->
  0 <= shift_of m e /\
  e + shift_of m e <= ev /\
  m / 2 ^ shift_of m e <= Z.pos mv * 2 ^ (ev - (e + shift_of m e)) /\
  (m / 2 ^ shift_of m e = Z.pos mv * 2 ^ (ev - (e + shift_of m e)) ->
   m = Z.pos mv * 2 ^ (ev - e) /\ m mod 2 ^ shift_of m e = 0).
Proof.
  intros Hm He Hb Hle. apply bounded_inv in Hb as [Hcan Hmax].
  pose proof (Zdigits2_le m (ev - e) mv Hm ltac:(lia) Hle) as Hd.
  rewrite shift_of_eq. set (k := Z.max _ 0).
  assert (Hk : 0 <= k) by (unfold k; lia).
  assert (Hek : e + k <= ev) by (unfold k; lia).
  pose proof (pow2_pos k Hk) as HP.
  assert (Hsplit : 2 ^ (ev - e) = 2 ^ (ev - (e + k)) * 2 ^ k).
  { rewrite <- pow2_split by lia. f_equal. lia. }
  rewrite Hsplit in *.
  set (V := Z.pos mv * 2 ^ (ev - (e + k))) in *.
  set (P := 2 ^ k) in *.
  assert (HVP : m <= P * V) by (unfold V; lia).
  repeat split; try assumption.
  - apply Z.div_le_upper_bound; assumption.
  - pose proof (Z.mul_div_le m P HP). unfold V in *. nia.
  - pose proof (Z.mul_div_le m P HP) as Hmd.
    assert (Em : m = V * P) by (unfold V in *; nia).
    rewrite Em. apply Z.mod_mul. lia.
Qed.

Lemma above_pos (mv : positive) (ev m e : Z) : above mv ev m e -> 0 < m.
Proof.
  intros [[He H]|[He H]]; [|lia].
  pose proof (pow2_pos (ev - e) ltac:(lia)). nia.
Qed.

Lemma trunc_lower (m e ev : Z) (mv : positive) :
  bounded prec emax mv ev = true ->
  above mv ev m e ->
  above mv ev (m / 2 ^ shift_of m e) (e + shift_of m e).
Proof.
  intros Hb Habove. pose proof (above_pos _ _ _ _ Habove) as Hm.
  apply bounded_inv in Hb as [Hcan Hmax].
  pose proof (Zdigits2_lower m Hm) as Hlo.
  rewrite shift_of_eq. set (d := Zdigits2 m) in *.
  destruct (Z.le_gt_cases (Z.max (d + e - 53) (-1074) - e) 0) as [Hk|Hk].
  - rewrite Z.max_r by lia. rewrite Z.div_1_r, Z.add_0_r. exact Habove.
  - rewrite Z.max_l by lia.
    set (e' := Z.max (d + e - 53) (-1074)) in *.
    pose proof (pow2_pos (e' - e) ltac:(lia)) as HP.
    assert (Hright : ev < e' -> 2 ^ 52 <= m / 2 ^ (e' - e)).
    { intros Hlt. assert (Ee' : e' = d + e - 53) by (unfold e'; lia).
      apply Z.div_le_lower_bound; [assumption|].
      rewrite <- pow2_split by lia.
      replace (e' - e + 52) with (d - 1) by lia. exact Hlo. }
    replace (e + (e' - e)) with e' by lia.
    destruct (Z.le_gt_cases e' ev) as [Hle|Hgt].
    + left. split; [assumption|].
      destruct Habove as [[He HV]|[He _]]; [|lia].
      apply Z.div_le_lower_bound; [assumption|].
      assert (Hsplit : 2 ^ (ev - e) = 2 ^ (e' - e) * 2 ^ (ev - e')).
      { rewrite <- pow2_split by lia. f_equal. lia. }
      rewrite Hsplit in HV. lia.
    + right. split; [assumption|]. apply Hright. assumption.
Qed.

Lemma trunc_small (m e : Z) :
  0 <= m ->
  m / 2 ^ shift_of m e < 2 ^ 53 /\ -1074 <= e + shift_of m e.
Proof.
  intros Hm. pose proof (Zdigits2_upper m Hm) as Hup.
  pose proof (Zdigits2_nonneg m) as Hd.
  rewrite shift_of_eq. set (d := Zdigits2 m) in *.
  set (k := Z.max _ 0).
  assert (Hk : 0 <= k) by (unfold k; lia).
  assert (Hkd : d <= k + 53) by (unfold k; lia).
  split; [|unfold k; lia].
  apply Z.div_lt_upper_bound; [apply pow2_pos; assumption|].
  rewrite <- pow2_split by lia.
  pose proof (pow2_le d (k + 53) ltac:(lia)). lia.
Qed.

Lemma finish_nonneg (m e : Z) : 0 <= m -> sf_nonneg (finish m e) = true.
Proof.
  destruct m as [|p|p]; intros Hm; try lia; cbn [finish]; [reflexivity|].
  destruct (e <=? emax - prec); reflexivity.
Qed.

(** Rounding never moves a value above a representable upper bound. *)
Lemma round_upper (mx ex ev : Z) (mv : positive) (lx : location) :
  0 <= mx -> ex <= ev -> bounded prec emax mv ev = true ->
  mx <= Z.pos mv * 2 ^ (ev - ex) ->
  (mx = Z.pos mv * 2 ^ (ev - ex) -> loc_exact lx = true) ->
  SFleb (binary_round_aux prec emax false mx ex lx) (S754_finite false mv ev)
  = true /\
  sf_nonneg (binary_round_aux prec emax false mx ex lx) = true.
Proof.
  intros Hmx Hex Hb Hle Hexact.
  destruct (binary_round_aux_spec mx ex lx Hmx) as (mr & Hmr & Hmr_exact & ->).
  destruct (trunc_upper mx ex ev mv Hmx Hex Hb Hle) as (Hk1 & He1 & Hmt & Hmt_eq).
  set (k1 := shift_of mx ex) in *. set (e1 := ex + k1) in *.
  assert (Hmt0 : 0 <= mx / 2 ^ k1).
  { apply Z.div_pos; [lia|apply pow2_pos; assumption]. }
  assert (Hmr0 : 0 <= mr) by lia.
  assert (Hmr_le : mr <= Z.pos mv * 2 ^ (ev - e1)).
  { destruct (Z.eq_dec (mx / 2 ^ k1) (Z.pos mv * 2 ^ (ev - e1))) as [E|N].
    - destruct (Hmt_eq E) as [Emx Emod].
      rewrite (Hmr_exact (Hexact Emx) Emod). lia.
    - lia. }
  destruct (trunc_upper mr e1 ev mv Hmr0 He1 Hb Hmr_le) as (Hk2 & He2 & Hm2 & _).
  set (k2 := shift_of mr e1) in *.
  assert (Hm20 : 0 <= mr / 2 ^ k2).
  { apply Z.div_pos; [lia|apply pow2_pos; assumption]. }
  split; [|apply finish_nonneg; assumption].
  apply bounded_inv in Hb as [_ Hmax].
  destruct (mr / 2 ^ k2) as [|p|p] eqn:Ep; try lia; cbn [finish].
  - reflexivity.
  - change (emax - prec) with 971.
    destruct (Z.leb_spec (e1 + k2) 971) as [_|Hbad]; [|lia].
    unfold SFleb, SFcompare.
    destruct (Z.compare_spec (e1 + k2) ev) as [E|L|G]; try reflexivity; [|lia].
    rewrite E, Z.sub_diag in Hm2. change (2 ^ 0) with 1 in Hm2.
    fold (Pos.compare p mv).
    destruct (Pos.compare_spec p mv) as [?|?|?]; try reflexivity. lia.
Qed.

(** Rounding never moves a value below a representable lower bound. *)
Lemma round_lower (mx ex ev : Z) (mv : positive) (lx : location) :
  ex <= ev -> bounded prec emax mv ev = true ->
  Z.pos mv * 2 ^ (ev - ex) <= mx ->
  SFleb (S754_finite false mv ev) (binary_round_aux prec emax false mx ex lx)
  = true.
Proof.
  intros Hex Hb Hle.
  assert (Habove : above mv ev mx ex) by (left; split; assumption).
  pose proof (above_pos _ _ _ _ Habove) as Hmx.
  destruct (binary_round_aux_spec mx ex lx ltac:(lia)) as (mr & Hmr & _ & ->).
  pose proof (trunc_lower _ _ _ _ Hb Habove) as H1.
  set (k1 := shift_of mx ex) in *. set (e1 := ex + k1) in *.
  assert (Habove1 : above mv ev mr e1).
  { destruct H1 as [[He HV]|[He HV]]; [left|right]; split; lia. }
  pose proof (above_pos _ _ _ _ Habove1) as Hmr0.
  pose proof (trunc_lower _ _ _ _ Hb Habove1) as H2.
  destruct (trunc_small mr e1 ltac:(lia)) as [Hsmall Hemin].
  set (k2 := shift_of mr e1) in *.
  pose proof (above_pos _ _ _ _ H2) as Hm2.
  apply bounded_inv in Hb as [Hcan Hmax].
  pose proof (digits2_pos_bounds mv) as [Hdlo Hdhi].
  destruct (mr / 2 ^ k2) as [|p|p] eqn:Ep; try lia; cbn [finish].
  change (emax - prec) with 971.
  destruct (Z.leb_spec (e1 + k2) 971) as [_|_]; [|reflexivity].
  unfold SFleb, SFcompare.
  destruct (Z.compare_spec ev (e1 + k2)) as [E|L|G]; try reflexivity.
  - destruct H2 as [[_ HV]|[Hlt _]]; [|lia].
    rewrite E, Z.sub_diag in HV. change (2 ^ 0) with 1 in HV.
    fold (Pos.compare mv p).
    destruct (Pos.compare_spec mv p) as [?|?|?]; try reflexivity. lia.
  - exfalso. destruct H2 as [[_ HV]|[Hlt _]]; [|lia].
    assert (Hd : Z.pos (digits2_pos mv) = 53) by lia.
    rewrite Hd in Hdlo. change (2 ^ (53 - 1)) with (2 ^ 52) in Hdlo.
    pose proof (pow2_le 1 (ev - (e1 + k2)) ltac:(lia)) as Hp.
    change (2 ^ 1) with 2 in Hp.
    assert (2 ^ 53 = 2 * 2 ^ 52) by reflexivity. nia.
Qed.

(** ** Bounds on the four operations *)

Lemma iter_xO (m d : positive) :
  Z.pos (Pos.iter xO m d) = Z.pos m * 2 ^ Z.pos d.
Proof.
  induction d as [|d IH] using Pos.peano_ind.
  - cbn. lia.
  - rewrite Pos.iter_succ, Pos2Z.inj_xO, IH, Pos2Z.inj_succ, Z.pow_succ_r by lia.
    lia.
Qed.

Lemma shl_align_spec (m : positive) (e e' : Z) :
  snd (shl_align m e e') = Z.min e e' /\
  Z.pos (fst (shl_align m e e')) = Z.pos m * 2 ^ (e - Z.min e e').
Proof.
  unfold shl_align. destruct (e' - e) as [|d|d] eqn:E; cbn [fst snd].
  - replace (Z.min e e') with e by lia. rewrite Z.sub_diag. cbn. lia.
  - replace (Z.min e e') with e by lia. rewrite Z.sub_diag. cbn. lia.
  - replace (Z.min e e') with e' by lia. split; [reflexivity|].
    rewrite iter_xO. f_equal. f_equal. lia.
Qed.

Lemma SFleb_refl_nonneg (x : spec_float) :
  sf_nonneg x = true -> SFleb x x = true.
Proof.
  destruct x as [s|[|]| |[|] m e]; cbn [sf_nonneg]; try discriminate;
    try reflexivity.
  intros _. unfold SFleb, SFcompare. rewrite Z.compare_refl.
  fold (Pos.compare m m). rewrite Pos.compare_refl. reflexivity.
Qed.

Lemma binary_round_aux_nonneg (mx ex : Z) (lx : location) :
  0 <= mx -> sf_nonneg (binary_round_aux prec emax false mx ex lx) = true.
Proof.
  intros Hmx.
  destruct (binary_round_aux_spec mx ex lx Hmx) as (mr & Hmr & _ & ->).
  apply finish_nonneg. apply Z.div_pos.
  - assert (0 <= mx / 2 ^ shift_of mx ex); [|lia].
    apply Z.div_pos; [lia|]. apply pow2_pos. unfold shift_of. lia.
  - apply pow2_pos. unfold shift_of. lia.
Qed.

Lemma binary_round_eq (m : positive) (e : Z) :
  binary_round prec emax false m e
  = binary_round_aux prec emax false
      (Z.pos (fst (shl_align m e (fexp prec emax (Z.pos (digits2_pos m) + e)))))
      (snd (shl_align m e (fexp prec emax (Z.pos (digits2_pos m) + e))))
      loc_Exact.
Proof.
  unfold binary_round.
  destruct (shl_align m e (fexp prec emax (Z.pos (digits2_pos m) + e))).
  reflexivity.
Qed.

Lemma binary_normalize_nonneg (m e : Z) :
  0 <= m -> sf_nonneg (binary_normalize prec emax m e false) = true.
Proof.
  destruct m as [|p|p]; intros Hm; try lia; cbn [binary_normalize].
  - reflexivity.
  - rewrite binary_round_eq. apply binary_round_aux_nonneg. lia.
Qed.

Lemma binary_normalize_upper (m e ev : Z) (mv : positive) :
  0 <= m -> e <= ev -> bounded prec emax mv ev = true ->
  m <= Z.pos mv * 2 ^ (ev - e) ->
  SFleb (binary_normalize prec emax m e false) (S754_finite false mv ev) = true.
Proof.
  destruct m as [|p|p]; intros Hm He Hb Hle; try lia; cbn [binary_normalize].
  - reflexivity.
  - rewrite binary_round_eq.
    destruct (shl_align_spec p e (fexp prec emax (Z.pos (digits2_pos p) + e)))
      as [Es Ef].
    set (e' := fexp prec emax (Z.pos (digits2_pos p) + e)) in *.
    rewrite Es, Ef.
    assert (Hsplit : 2 ^ (ev - Z.min e e')
                     = 2 ^ (ev - e) * 2 ^ (e - Z.min e e')).
    { rewrite <- pow2_split by lia. f_equal. lia. }
    pose proof (pow2_pos (e - Z.min e e') ltac:(lia)) as HP.
    apply round_upper; try assumption; try lia.
    + rewrite Hsplit. nia.
    + reflexivity.
Qed.

Lemma binary_normalize_lower (m e ev : Z) (mv : positive) :
  e <= ev -> bounded prec emax mv ev = true ->
  Z.pos mv * 2 ^ (ev - e) <= m ->
  SFleb (S754_finite false mv ev) (binary_normalize prec emax m e false) = true.
Proof.
  intros He Hb Hle.
  pose proof (pow2_pos (ev - e) ltac:(lia)) as HP0.
  destruct m as [|p|p]; try lia; cbn [binary_normalize].
  rewrite binary_round_eq.
  destruct (shl_align_spec p e (fexp prec emax (Z.pos (digits2_pos p) + e)))
    as [Es Ef].
  set (e' := fexp prec emax (Z.pos (digits2_pos p) + e)) in *.
  rewrite Es, Ef.
  assert (Hsplit : 2 ^ (ev - Z.min e e')
                   = 2 ^ (ev - e) * 2 ^ (e - Z.min e e')).
  { rewrite <- pow2_split by lia. f_equal. lia. }
  pose proof (pow2_pos (e - Z.min e e') ltac:(lia)) as HP.
  apply round_lower; try assumption; try lia.
  rewrite Hsplit. nia.
Qed.

(** Adding a non-negative number never gives less than the first operand. *)
Lemma SFadd_lower (x y : spec_float) :
  valid_binary x = true ->
  sf_nonneg x = true -> sf_nonneg y = true ->
  SFleb x (SF64add x y) = true /\ sf_nonneg (SF64add x y) = true.
Proof.
  intros Hv Hx Hy.
  destruct x as [sx|[|]| |[|] mx ex]; try discriminate;
    destruct y as [sy|[|]| |[|] my ey]; try discriminate;
    try (split; reflexivity);
    try (destruct sx; split; reflexivity);
    try (destruct sx, sy; split; reflexivity).
  - split; [apply SFleb_refl_nonneg|]; reflexivity.
  - cbn [SpecFloat.valid_binary] in Hv. unfold SF64add, SFadd. cbn [cond_Zopp].
    destruct (shl_align_spec mx ex (Z.min ex ey)) as [_ E1].
    destruct (shl_align_spec my ey (Z.min ex ey)) as [_ E2].
    rewrite E1, E2.
    replace (Z.min ex (Z.min ex ey)) with (Z.min ex ey) by lia.
    pose proof (pow2_pos (ey - Z.min ey (Z.min ex ey)) ltac:(lia)) as HP.
    split.
    + apply binary_normalize_lower; try assumption; lia.
    + apply binary_normalize_nonneg.
      pose proof (pow2_pos (ex - Z.min ex ey) ltac:(lia)). lia.
Qed.

Lemma SFadd_nn (x y : spec_float) :
  sf_nn x = true -> sf_nn y = true -> sf_nn (SF64add x y) = true.
Proof.
  intros Hx Hy.
  destruct x as [sx|[|]| |[|] mx ex]; try discriminate;
    destruct y as [sy|[|]| |[|] my ey]; try discriminate;
    try reflexivity;
    try (destruct sx; reflexivity);
    try (destruct sx, sy; reflexivity).
  unfold SF64add, SFadd. cbn [cond_Zopp].
  assert (H : sf_nonneg (binary_normalize prec emax
                (Z.pos (fst (shl_align mx ex (Z.min ex ey)))
                 + Z.pos (fst (shl_align my ey (Z.min ex ey))))
                (Z.min ex ey) false) = true)
    by (apply binary_normalize_nonneg; lia).
  unfold sf_nn. destruct (binary_normalize _ _ _ _ _); try reflexivity; exact H.
Qed.

Lemma SFmul_nn (x y : spec_float) :
  sf_nn x = true -> sf_nn y = true -> sf_nn (SF64mul x y) = true.
Proof.
  intros Hx Hy.
  destruct x as [sx|[|]| |[|] mx ex]; try discriminate;
    destruct y as [sy|[|]| |[|] my ey]; try discriminate;
    try reflexivity.
  unfold SF64mul, SFmul. cbn [xorb].
  assert (H : sf_nonneg (binary_round_aux prec emax false
                           (Z.pos (mx * my)) (ex + ey) loc_Exact) = true)
    by (apply binary_round_aux_nonneg; lia).
  unfold sf_nn. destruct (binary_round_aux _ _ _ _ _ _); try reflexivity; exact H.
Qed.

(** What [x <= y] says about two canonical positive numbers. *)
Lemma SFleb_finite_inv (m1 m2 : positive) (e1 e2 : Z) :
  SFleb (S754_finite false m1 e1) (S754_finite false m2 e2) = true ->
  e1 < e2 \/ (e1 = e2 /\ Z.pos m1 <= Z.pos m2).
Proof.
  unfold SFleb, SFcompare.
  destruct (Z.compare_spec e1 e2) as [E|L|G]; intros H.
  - right. split; [assumption|]. fold (Pos.compare m1 m2) in H.
    destruct (Pos.compare_spec m1 m2); try lia; discriminate.
  - left. assumption.
  - discriminate.
Qed.

Lemma bounded_digits (m : positive) (e : Z) :
  bounded prec emax m e = true ->
  Z.pos m < 2 ^ 53 /\ -1074 <= e /\ (-1074 < e -> 2 ^ 52 <= Z.pos m).
Proof.
  intros Hb. apply bounded_inv in Hb as [Hcan _].
  pose proof (digits2_pos_bounds m) as [Hlo Hhi].
  repeat split; try lia.
  - pose proof (pow2_le (Z.pos (digits2_pos m)) 53 ltac:(lia)). lia.
  - intros He. replace (Z.pos (digits2_pos m)) with 53 in Hlo by lia.
    exact Hlo.
Qed.

Lemma new_location_exact (n k : Z) :
  loc_exact (new_location n k) = (k =? 0).
Proof.
  unfold new_location, new_location_even, new_location_odd.
  destruct (Z.even n); destruct (k =? 0); reflexivity.
Qed.

(** A quotient of a number by a larger one is at most one. *)
Lemma SFdiv_le_one (x y : spec_float) :
  valid_binary x = true -> valid_binary y = true ->
  sf_nonneg x = true -> sf_nonneg y = true -> sf_zero y = false ->
  SFleb x y = true ->
  (SF64div x y = S754_nan /\ sf_finite x = false) \/
  (sf_nonneg (SF64div x y) = true /\ SFleb (SF64div x y) sf_one = true).
Proof.
  intros Hvx Hvy Hx Hy Hnz Hle.
  destruct x as [sx|[|]| |[|] m1 e1]; try discriminate;
    destruct y as [sy|[|]| |[|] m2 e2]; try discriminate;
    try (left; split; reflexivity);
    try (right; destruct sx; split; reflexivity);
    try (right; split; reflexivity).
  right. cbn [SpecFloat.valid_binary] in Hvx, Hvy.
  destruct (bounded_digits m1 e1 Hvx) as (Hm1 & He1 & _).
  destruct (bounded_digits m2 e2 Hvy) as (Hm2 & He2 & Hnorm2).
  apply bounded_inv in Hvx as [Hc1 _]. apply bounded_inv in Hvy as [Hc2 _].
  apply SFleb_finite_inv in Hle.
  unfold SF64div, SFdiv, SFdiv_core_binary. cbn [xorb Zdigits2].
  rewrite fexp_eq.
  set (d1 := Z.pos (digits2_pos m1)) in *.
  set (d2 := Z.pos (digits2_pos m2)) in *.
  assert (Hd : d1 + e1 <= d2 + e2).
  { destruct Hle as [Hlt|[-> Hm]].
    - lia.
    - pose proof (Zdigits2_le (Z.pos m1) 0 m2 ltac:(lia) ltac:(lia)
                    ltac:(change (2 ^ 0) with 1; lia)) as H.
      cbn [Zdigits2] in H. fold d1 d2 in H. lia. }
  set (e' := Z.min (Z.max (d1 + e1 - (d2 + e2) - 53) (-1074)) (e1 - e2)).
  assert (He' : e' <= -53) by (unfold e'; lia).
  assert (Hs : 0 <= e1 - e2 - e') by (unfold e'; lia).
  set (s := e1 - e2 - e') in *.
  assert (Em' : match s with
                | 0 => Z.pos m1
                | Z.pos _ => Z.shiftl (Z.pos m1) s
                | Z.neg _ => 0
                end = Z.pos m1 * 2 ^ s).
  { destruct s as [|p|p] eqn:Es; try lia.
    cbv iota. apply Z.shiftl_mul_pow2. lia. }
  rewrite Em'.
  set (m' := Z.pos m1 * 2 ^ s).
  assert (Eq : Z.div_eucl m' (Z.pos m2) = (m' / Z.pos m2, m' mod Z.pos m2)).
  { unfold Z.div, Z.modulo. destruct (Z.div_eucl m' (Z.pos m2)); reflexivity. }
  rewrite Eq.
  pose proof (pow2_pos s Hs) as HPs.
  pose proof (pow2_pos (-52 - e') ltac:(lia)) as HPT.
  assert (HT : 4503599627370496 * 2 ^ (-52 - e') = 2 ^ (- e')).
  { change 4503599627370496 with (2 ^ 52). rewrite <- pow2_split by lia.
    f_equal. lia. }
  assert (Hm' : m' <= Z.pos m2 * 2 ^ (- e')).
  { unfold m'. destruct Hle as [Hlt|[E Hm]].
    - assert (Hsplit : 2 ^ (- e') = 2 ^ s * 2 ^ (e2 - e1)).
      { rewrite <- pow2_split by lia. f_equal. lia. }
      pose proof (pow2_le 1 (e2 - e1) ltac:(lia)) as Hp.
      change (2 ^ 1) with 2 in Hp.
      specialize (Hnorm2 ltac:(lia)).
      assert (2 ^ 53 = 2 * 2 ^ 52) by reflexivity.
      rewrite Hsplit. nia.
    - replace (- e') with s by lia. nia. }
  assert (Hq0 : 0 <= m' / Z.pos m2) by (apply Z.div_pos; lia).
  assert (Hq : m' / Z.pos m2 <= 2 ^ (- e')).
  { apply Z.div_le_upper_bound; lia. }
  split.
  - apply binary_round_aux_nonneg. assumption.
  - unfold sf_one.
    assert (Hexact : m' / Z.pos m2 = 4503599627370496 * 2 ^ (-52 - e') ->
                     loc_exact (new_location (Z.pos m2) (m' mod Z.pos m2))
                     = true).
    { rewrite HT. intros E. rewrite new_location_exact. apply Z.eqb_eq.
      pose proof (Z.mul_div_le m' (Z.pos m2) ltac:(lia)) as Hmd.
      rewrite E in Hmd.
      assert (Em : m' = 2 ^ (- e') * Z.pos m2) by lia.
      rewrite Em. apply Z.mod_mul. lia. }
    rewrite <- HT in Hq.
    apply (proj1 (round_upper _ e' (-52) 4503599627370496 _ Hq0
                    ltac:(lia) eq_refl Hq Hexact)).
Qed.

(** One minus a number of [0, 1] is again in [0, 1]. *)
Lemma SFsub_one_le (x : spec_float) :
  valid_binary x = true ->
  sf_nonneg x = true -> SFleb x sf_one = true ->
  sf_nonneg (SF64sub sf_one x) = true /\ SFleb (SF64sub sf_one x) sf_one = true.
Proof.
  intros Hv Hx Hle.
  destruct x as [sx|[|]| |[|] m e]; try discriminate.
  - split; reflexivity.
  - cbn [SpecFloat.valid_binary] in Hv.
    destruct (bounded_digits m e Hv) as (Hm & He & _).
    apply SFleb_finite_inv in Hle.
    unfold SF64sub, SFsub, sf_one. cbn [cond_Zopp].
    destruct (shl_align_spec 4503599627370496 (-52) (Z.min (-52) e)) as [_ E1].
    destruct (shl_align_spec m e (Z.min (-52) e)) as [_ E2].
    rewrite E1, E2.
    replace (Z.min (-52) (Z.min (-52) e)) with e by lia.
    replace (Z.min e (Z.min (-52) e)) with e by lia.
    replace (Z.min (-52) e) with e by lia.
    rewrite Z.sub_diag. change (2 ^ 0) with 1. rewrite Z.mul_1_r.
    pose proof (pow2_pos (-52 - e) ltac:(lia)) as HP.
    assert (Hge : Z.pos m <= 4503599627370496 * 2 ^ (-52 - e)).
    { destruct Hle as [Hlt|[-> Hm']].
      - change 4503599627370496 with (2 ^ 52). rewrite <- pow2_split by lia.
        pose proof (pow2_le 53 (52 + (-52 - e)) ltac:(lia)). lia.
      - change (2 ^ (-52 - -52)) with 1. lia. }
    split.
    + apply binary_normalize_nonneg. lia.
    + apply binary_normalize_upper; try lia. reflexivity.
Qed.

(** Multiplying by a number of [0, 1] does not increase a finite number. *)
Lemma SFmul_le (x y : spec_float) :
  valid_binary x = true -> valid_binary y = true ->
  sf_nonneg x = true -> SFleb x sf_one = true ->
  sf_nonneg y = true -> sf_finite y = true ->
  sf_nonneg (SF64mul x y) = true /\ SFleb (SF64mul x y) y = true.
Proof.
  intros Hvx Hvy Hx Hle Hy Hfin.
  destruct x as [sx|[|]| |[|] mx ex]; try discriminate;
    destruct y as [sy|[|]| |[|] my ey]; try discriminate;
    try (split; reflexivity);
    try (destruct sx; split; reflexivity);
    try (destruct sx, sy; split; reflexivity).
  cbn [SpecFloat.valid_binary] in Hvx, Hvy.
  destruct (bounded_digits mx ex Hvx) as (Hmx & Hex & _).
  apply SFleb_finite_inv in Hle.
  unfold SF64mul, SFmul. cbn [xorb].
  split; [apply binary_round_aux_nonneg; lia|].
  assert (Hbound : Z.pos mx <= 2 ^ (- ex)).
  { destruct Hle as [Hlt|[-> Hm']].
    - pose proof (pow2_le 53 (- ex) ltac:(lia)). lia.
    - change (2 ^ (- -52)) with 4503599627370496. lia. }
  apply round_upper; try assumption; try lia.
  - replace (ey - (ex + ey)) with (- ex) by lia. rewrite Pos2Z.inj_mul. nia.
  - reflexivity.
Qed.

(** The sum of a non-negative number and a positive one is not zero. *)
Lemma SFadd_pos (x y : spec_float) :
  valid_binary x = true ->
  sf_nonneg x = true -> sf_nonneg y = true -> sf_zero y = false ->
  sf_zero (SF64add x y) = false.
Proof.
  intros Hv Hx Hy Hnz.
  destruct (SFadd_lower x y Hv Hx Hy) as [Hle _].
  destruct x as [sx|[|]| |[|] mx ex]; try discriminate;
    destruct y as [sy|[|]| |[|] my ey]; try discriminate;
    try reflexivity.
  destruct (SF64add (S754_finite false mx ex) (S754_finite false my ey));
    try reflexivity. discriminate Hle.
Qed.

(** A quotient by zero is infinite or not a number. *)
Lemma SFdiv_by_zero (x y : spec_float) :
  sf_zero y = true -> sf_finite (SF64div x y) = false.
Proof.
  destruct y as [sy| | |]; try discriminate. intros _.
  destruct x as [sx|sx| |sx mx ex]; reflexivity.
Qed.

(** Equal finite numbers have the same sign, mantissa and exponent. *)
Lemma SFeqb_finite_inv (s1 s2 : bool) (m1 m2 : positive) (e1 e2 : Z) :
  SFeqb (S754_finite s1 m1 e1) (S754_finite s2 m2 e2) = true ->
  s1 = s2 /\ m1 = m2 /\ e1 = e2.
Proof.
  unfold SFeqb, SFcompare.
  destruct s1, s2; try discriminate;
    destruct (Z.compare_spec e1 e2) as [E|L|G]; try discriminate;
    fold (Pos.compare m1 m2);
    destruct (Pos.compare_spec m1 m2) as [E'|L'|G']; try discriminate;
    intros _; repeat split; assumption.
Qed.

(** A finite [c] is a fixed point of the correction [e + K * (c - e)] when
    [e == c] and the gain is finite. *)
Lemma SF_correction_fixed_point (E C K : spec_float) :
  sf_finite C = true -> sf_finite K = true -> SFeqb E C = true ->
  SFeqb (SF64add E (SF64mul K (SF64sub C E))) C = true.
Proof.
  intros HC HK Heq.
  destruct C as [sc| | |sc mc ec]; try discriminate;
    destruct E as [se|se| |se me ee]; try discriminate;
    try (destruct se; discriminate); try (destruct sc; discriminate).
  - destruct K as [sk| | |sk mk ek]; try discriminate;
      destruct sc, se, sk; reflexivity.
  - apply SFeqb_finite_inv in Heq as (-> & -> & ->).
    unfold SF64sub, SFsub. rewrite Z.sub_diag. cbn [binary_normalize].
    assert (HKz : exists s, SF64mul K (S754_zero false) = S754_zero s).
    { destruct K as [sk| | |sk mk ek]; try discriminate; eexists; reflexivity. }
    destruct HKz as [s ->]. cbn [SF64add SFadd].
    unfold SFeqb, SFcompare. rewrite Z.compare_refl.
    fold (Pos.compare mc mc). rewrite Pos.compare_refl.
    destruct sc; reflexivity.
Qed.

End Binary64_rounding.

(** ** The operators of [binary64] through their specification *)

Lemma b64_add_spec (x y : float) :
  Prim2SF (x + y)%py = SF64add (Prim2SF x) (Prim2SF y).
Proof. exact (FloatAxioms.add_spec x y). Qed.

Lemma b64_sub_spec (x y : float) :
  Prim2SF (x - y)%py = SF64sub (Prim2SF x) (Prim2SF y).
Proof. exact (FloatAxioms.sub_spec x y). Qed.

Lemma b64_mul_spec (x y : float) :
  Prim2SF (x * y)%py = SF64mul (Prim2SF x) (Prim2SF y).
Proof. exact (FloatAxioms.mul_spec x y). Qed.

Lemma b64_quot_spec (x y : float) :
  Prim2SF (quot x y) = SF64div (Prim2SF x) (Prim2SF y).
Proof. exact (FloatAxioms.div_spec x y). Qed.

Lemma b64_zero : Prim2SF (f64 0) = S754_zero false.
Proof. vm_compute. reflexivity. Qed.

Lemma b64_one : Prim2SF (f64 1) = sf_one.
Proof. vm_compute. reflexivity. Qed.

Lemma b64_leb_spec (x y : float) : leb x y = SFleb (Prim2SF x) (Prim2SF y).
Proof. exact (FloatAxioms.leb_spec x y). Qed.

Lemma b64_eqb_spec (x y : float) : eqb x y = SFeqb (Prim2SF x) (Prim2SF y).
Proof. exact (FloatAxioms.eqb_spec x y). Qed.

Lemma b64_leb_zero (x : float) : leb (lit 0) x = sf_nonneg (Prim2SF x).
Proof.
  rewrite b64_leb_spec. change (@lit float binary64 0) with (f64 0).
  rewrite b64_zero. destruct (Prim2SF x) as [s|[|]| |[|] m e]; reflexivity.
Qed.

Lemma b64_ltb_zero (x : float) :
  ltb (lit 0) x = sf_nonneg (Prim2SF x) && negb (sf_zero (Prim2SF x)).
Proof.
  change (ltb (lit 0) x) with (PrimFloat.ltb (f64 0) x).
  rewrite FloatAxioms.ltb_spec, b64_zero.
  destruct (Prim2SF x) as [s|[|]| |[|] m e]; reflexivity.
Qed.

Lemma b64_eqb_zero (x : float) : eqb x (lit 0) = sf_zero (Prim2SF x).
Proof.
  rewrite b64_eqb_spec. change (@lit float binary64 0) with (f64 0).
  rewrite b64_zero. destruct (Prim2SF x) as [s|[|]| |[|] m e]; reflexivity.
Qed.

Lemma b64_leb_one (x : float) : leb x (lit 1) = SFleb (Prim2SF x) sf_one.
Proof.
  rewrite b64_leb_spec. change (@lit float binary64 1) with (f64 1).
  rewrite b64_one. reflexivity.
Qed.

Lemma SFeqb_refl (x : spec_float) : SFeqb x x = negb (sf_is_nan x).
Proof.
  destruct x as [s|[|]| |[|] m e]; try reflexivity;
    unfold SFeqb, SFcompare; rewrite Z.compare_refl;
    fold (Pos.compare m m); rewrite Pos.compare_refl; reflexivity.
Qed.

Lemma b64_is_nan (x : float) : PrimFloat.is_nan x = sf_is_nan (Prim2SF x).
Proof.
  unfold PrimFloat.is_nan. rewrite FloatAxioms.eqb_spec, SFeqb_refl.
  apply negb_involutive.
Qed.

Lemma b64_is_finite (x : float) :
  PrimFloat.is_finite x = sf_finite (Prim2SF x).
Proof.
  unfold PrimFloat.is_finite, PrimFloat.is_infinity.
  rewrite b64_is_nan, FloatAxioms.eqb_spec, FloatAxioms.abs_spec.
  assert (Hinf : Prim2SF PrimFloat.infinity = S754_infinity false)
    by (vm_compute; reflexivity).
  rewrite Hinf.
  destruct (Prim2SF x) as [s|[|]| |[|] m e]; reflexivity.
Qed.

Lemma sf_nonneg_nn (x : spec_float) : sf_nonneg x = true -> sf_nn x = true.
Proof. destruct x as [s|[|]| |[|] m e]; intros H; try discriminate; reflexivity. Qed.

Lemma sf_nn_cases (x : spec_float) :
  sf_nn x = true -> x = S754_nan \/ sf_nonneg x = true.
Proof. destruct x; intros H; [right|right|left|right]; trivial. Qed.

(** * [SimpleKalmanFilter] in binary64 *)

Section Simple_kalman_binary64.

Implicit Types (self : t float) (q r m c : float).

(** ** One correction step *)

Lemma predicted_error_nn self :
  sf_nn (Prim2SF (error_estimate self)) = true ->
  sf_nonneg (Prim2SF (process_noise self)) = true ->
  sf_nn (Prim2SF (predicted_error self)) = true.
Proof.
  intros Hp Hq. unfold predicted_error. rewrite b64_add_spec.
  apply SFadd_nn; [exact Hp | apply sf_nonneg_nn; exact Hq].
Qed.

(** The divisor is at least the predicted error. *)
Lemma divisor_bounds self :
  sf_nonneg (Prim2SF (predicted_error self)) = true ->
  sf_nonneg (Prim2SF (measurement_noise self)) = true ->
  SFleb (Prim2SF (predicted_error self)) (Prim2SF (divisor self)) = true /\
  sf_nonneg (Prim2SF (divisor self)) = true.
Proof.
  intros Hpe Hr. unfold divisor. rewrite b64_add_spec.
  apply SFadd_lower; [apply Prim2SF_valid | exact Hpe | exact Hr].
Qed.

(** The gain is in [[0, 1]], or not a number when the predicted error is
    infinite. *)
Lemma gain_cases self :
  sf_nonneg (Prim2SF (predicted_error self)) = true ->
  sf_nonneg (Prim2SF (measurement_noise self)) = true ->
  sf_zero (Prim2SF (divisor self)) = false ->
  (Prim2SF (kalman_gain self) = S754_nan /\
   sf_finite (Prim2SF (predicted_error self)) = false) \/
  (sf_nonneg (Prim2SF (kalman_gain self)) = true /\
   SFleb (Prim2SF (kalman_gain self)) sf_one = true).
Proof.
  intros Hpe Hr Hnz. destruct (divisor_bounds self Hpe Hr) as [Hle Hd].
  unfold kalman_gain. rewrite b64_quot_spec.
  apply SFdiv_le_one; try apply Prim2SF_valid; assumption.
Qed.

Lemma one_minus_gain (K : float) :
  sf_nonneg (Prim2SF K) = true -> SFleb (Prim2SF K) sf_one = true ->
  sf_nonneg (Prim2SF (lit 1 - K)%py) = true /\
  SFleb (Prim2SF (lit 1 - K)%py) sf_one = true.
Proof.
  intros HK Hle. rewrite b64_sub_spec.
  change (@lit float binary64 1) with (f64 1). rewrite b64_one.
  apply SFsub_one_le; [apply Prim2SF_valid | exact HK | exact Hle].
Qed.

(** The corrected error is never negative: it is not a number, or it is at
    least zero. *)
Lemma corrected_error_nn self :
  sf_nn (Prim2SF (error_estimate self)) = true ->
  sf_nonneg (Prim2SF (process_noise self)) = true ->
  sf_nonneg (Prim2SF (measurement_noise self)) = true ->
  sf_zero (Prim2SF (divisor self)) = false ->
  sf_nn (Prim2SF ((lit 1 - kalman_gain self) * predicted_error self)%py) = true.
Proof.
  intros Hp Hq Hr Hnz.
  pose proof (predicted_error_nn self Hp Hq) as Hpe.
  assert (Hnan : Prim2SF (kalman_gain self) = S754_nan ->
                 sf_nn (Prim2SF ((lit 1 - kalman_gain self)
                                 * predicted_error self)%py) = true).
  { intros HK. rewrite b64_mul_spec, b64_sub_spec, HK.
    change (@lit float binary64 1) with (f64 1). rewrite b64_one.
    reflexivity. }
  destruct (sf_nn_cases _ Hpe) as [Hpe_nan | Hpe_nonneg].
  - apply Hnan. unfold kalman_gain. rewrite b64_quot_spec, Hpe_nan.
    reflexivity.
  - destruct (gain_cases self Hpe_nonneg Hr Hnz) as [[HK _] | [HK Hle]].
    + apply Hnan. exact HK.
    + destruct (one_minus_gain _ HK Hle) as [H1 _].
      rewrite b64_mul_spec. apply SFmul_nn; [apply sf_nonneg_nn; exact H1 | exact Hpe].
Qed.

Lemma after_error_nn self m :
  sf_nn (Prim2SF (error_estimate self)) = true ->
  sf_nonneg (Prim2SF (process_noise self)) = true ->
  sf_nonneg (Prim2SF (measurement_noise self)) = true ->
  sf_nn (Prim2SF (error_estimate (after self m))) = true.
Proof.
  intros Hp Hq Hr. unfold after. destruct (initialized self) eqn:Hinit.
  - rewrite (update_initialized _ _ Hinit).
    destruct (eqb (divisor self) (lit 0)) eqn:Hd; [exact Hp|].
    cbv zeta. cbn [error_estimate].
    rewrite b64_eqb_zero in Hd. apply corrected_error_nn; assumption.
  - rewrite (update_uninitialized _ _ Hinit). exact Hp.
Qed.

(** The error estimate of a reachable instance is never negative. *)
Lemma reachable_error_nn q r self :
  leb (lit 0) q = true -> leb (lit 0) r = true ->
  reachable q r self ->
  sf_nn (Prim2SF (error_estimate self)) = true.
Proof.
  rewrite !b64_leb_zero. intros Hq Hr Hreach.
  induction Hreach as [|self m Hreach IH].
  - change (error_estimate (__init__ q r)) with (f64 1). rewrite b64_one.
    reflexivity.
  - destruct (reachable_parameters Hreach) as [Eq Er].
    apply after_error_nn; [exact IH | rewrite Eq; exact Hq | rewrite Er; exact Hr].
Qed.

(** ** The claims *)

(** C2, amended. For an instance built with [process_noise >= 0] and
    [measurement_noise >= 0], in every reachable state: when an update
    computes a gain and the predicted error [error_estimate + process_noise]
    is finite (the sum has not overflowed and is not NaN), the gain lies in
    [[0, 1]] and the new error estimate lies between zero and the predicted
    error. *)
Theorem gain_contract_nonnegative_noise :
  forall (q r : float) (self self' : t float) (m y : float),
    leb (lit 0) q = true -> leb (lit 0) r = true ->
    reachable q r self ->
    initialized self = true ->
    PrimFloat.is_finite (predicted_error self) = true ->
    update self m = Return (self', y) ->
    leb (lit 0) (kalman_gain self) = true /\
    leb (kalman_gain self) (lit 1) = true /\
    leb (lit 0) (error_estimate self') = true /\
    leb (error_estimate self') (predicted_error self) = true.
Proof.
  intros q r self self' m y Hq Hr Hreach Hinit Hfin Hupd.
  pose proof (reachable_error_nn Hq Hr Hreach) as Hp.
  destruct (reachable_parameters Hreach) as [Eq Er].
  rewrite b64_leb_zero in Hq, Hr. rewrite <- Eq in Hq. rewrite <- Er in Hr.
  rewrite b64_is_finite in Hfin.
  pose proof (predicted_error_nn self Hp Hq) as Hpe.
  assert (Hpe_nonneg : sf_nonneg (Prim2SF (predicted_error self)) = true).
  { destruct (sf_nn_cases _ Hpe) as [E|H]; [|exact H].
    rewrite E in Hfin. discriminate Hfin. }
  rewrite (update_initialized _ _ Hinit) in Hupd.
  destruct (eqb (divisor self) (lit 0)) eqn:Hd; [discriminate Hupd|].
  cbv zeta in Hupd. injection Hupd as <- _.
  rewrite b64_eqb_zero in Hd. cbn [error_estimate].
  destruct (gain_cases self Hpe_nonneg Hr Hd) as [[_ Hinf] | [HK Hle]];
    [congruence|].
  destruct (one_minus_gain _ HK Hle) as [H1 H1le].
  rewrite !b64_leb_zero, b64_leb_one, b64_leb_spec, b64_mul_spec.
  destruct (SFmul_le (Prim2SF (lit 1 - kalman_gain self)%py)
              (Prim2SF (predicted_error self))
              (Prim2SF_valid _) (Prim2SF_valid _) H1 H1le Hpe_nonneg Hfin)
    as [Hnew Hnew_le].
  repeat split; assumption.
Qed.

(** C9, amended. For an instance built with [process_noise >= 0] and
    [measurement_noise > 0], in every reachable state the divisor of the
    gain is strictly positive or, once the error estimate has overflowed,
    not a number; it is never zero, so [update] never raises. *)
Theorem division_well_defined :
  forall (q r : float) (self : t float),
    leb (lit 0) q = true -> ltb (lit 0) r = true ->
    reachable q r self ->
    (PrimFloat.is_nan (divisor self) = true \/
     ltb (lit 0) (divisor self) = true) /\
    forall m : float, exists (self' : t float) (y : float),
      update self m = Return (self', y).
Proof.
  intros q r self Hq Hr Hreach.
  rewrite b64_ltb_zero in Hr. apply andb_true_iff in Hr as [Hr Hrnz].
  apply negb_true_iff in Hrnz.
  assert (Hr' : leb (lit 0) r = true) by (rewrite b64_leb_zero; exact Hr).
  pose proof (reachable_error_nn Hq Hr' Hreach) as Hp.
  destruct (reachable_parameters Hreach) as [Eq Er].
  rewrite b64_leb_zero in Hq. rewrite <- Eq in Hq.
  rewrite <- Er in Hr, Hrnz.
  pose proof (predicted_error_nn self Hp Hq) as Hpe.
  assert (Hd : sf_is_nan (Prim2SF (divisor self)) = true \/
               (sf_nonneg (Prim2SF (divisor self)) = true /\
                sf_zero (Prim2SF (divisor self)) = false)).
  { destruct (sf_nn_cases _ Hpe) as [E|Hpe_nonneg].
    - left. unfold divisor. rewrite b64_add_spec, E. reflexivity.
    - right. split.
      + apply divisor_bounds; assumption.
      + unfold divisor. rewrite b64_add_spec.
        apply SFadd_pos; [apply Prim2SF_valid | assumption ..]. }
  assert (Hnz : eqb (divisor self) (lit 0) = false).
  { rewrite b64_eqb_zero.
    destruct Hd as [Hnan | [_ Hnz]]; [|exact Hnz].
    destruct (Prim2SF (divisor self)); try discriminate Hnan; reflexivity. }
  split.
  - rewrite b64_is_nan, b64_ltb_zero.
    destruct Hd as [Hnan | [Hnonneg Hnz']]; [left; exact Hnan | right].
    rewrite Hnonneg, Hnz'. reflexivity.
  - intros m. destruct (initialized self) eqn:Hinit.
    + rewrite (update_initialized _ _ Hinit), Hnz. cbv zeta.
      eexists. eexists. reflexivity.
    + rewrite (update_uninitialized _ _ Hinit). eexists. eexists. reflexivity.
Qed.

(** X15. For an instance built with [process_noise >= 0] and
    [measurement_noise >= 0], the error estimate is never negative: in every
    reachable state it is at least zero or, after an overflow, NaN. *)
Theorem error_estimate_never_negative :
  forall (q r : float) (self : t float),
    leb (lit 0) q = true -> leb (lit 0) r = true ->
    reachable q r self ->
    PrimFloat.is_nan (error_estimate self) = true \/
    leb (lit 0) (error_estimate self) = true.
Proof.
  intros q r self Hq Hr Hreach.
  pose proof (reachable_error_nn Hq Hr Hreach) as Hp.
  rewrite b64_is_nan, b64_leb_zero.
  destruct (sf_nn_cases _ Hp) as [-> | H]; [left; reflexivity | right; exact H].
Qed.

(** ** A constant stream *)

(** On an initialized instance whose estimate equals a finite [c] and whose
    gain is finite, [update(c)] returns a value equal to [c] and stores it. *)
Lemma update_at_estimate self c :
  initialized self = true ->
  PrimFloat.is_finite c = true ->
  eqb (estimate self) c = true ->
  PrimFloat.is_finite (kalman_gain self) = true ->
  exists y : float,
    output self c = Return y /\ eqb y c = true /\
    initialized (after self c) = true /\ estimate (after self c) = y.
Proof.
  intros Hinit Hc He HK.
  rewrite b64_is_finite in Hc, HK. rewrite b64_eqb_spec in He.
  assert (Hnz : eqb (divisor self) (lit 0) = false).
  { rewrite b64_eqb_zero.
    destruct (sf_zero (Prim2SF (divisor self))) eqn:Hz; [|reflexivity].
    unfold kalman_gain in HK. rewrite b64_quot_spec in HK.
    rewrite (SFdiv_by_zero _ _ Hz) in HK. discriminate HK. }
  unfold output, after. rewrite (update_initialized _ _ Hinit), Hnz. cbv zeta.
  eexists. split; [reflexivity|]. split; [|split; reflexivity].
  rewrite b64_eqb_spec, b64_add_spec, b64_mul_spec, b64_sub_spec.
  apply SF_correction_fixed_point; assumption.
Qed.

Lemma outputs_at_estimate c (n : nat) : forall self,
  initialized self = true ->
  PrimFloat.is_finite c = true ->
  eqb (estimate self) c = true ->
  (forall k : nat, (k < n)%nat ->
     PrimFloat.is_finite (kalman_gain (calls self (repeat c k))) = true) ->
  Forall (fun o => exists y : float, o = Return y /\ eqb y c = true)
         (outputs self (repeat c n)).
Proof.
  induction n as [|n IH]; intros self Hinit Hc He HK; [constructor|].
  cbn [repeat outputs].
  destruct (update_at_estimate self Hinit Hc He (HK 0%nat ltac:(lia)))
    as (y & Hout & Hy & Hinit' & He').
  constructor.
  - exists y. split; assumption.
  - apply IH; try assumption.
    + rewrite He'. exact Hy.
    + intros k Hk. apply (HK (S k)). lia.
Qed.

(** C7, amended. A freshly constructed instance fed the constant stream of a
    finite [c] returns, at every call, a value equal to [c], as long as the
    gains computed along the way are finite (no overflow to infinity or NaN
    in the error estimate). *)
Theorem constant_stream_fixed_point :
  forall (q r c : float) (n : nat),
    PrimFloat.is_finite c = true ->
    (forall k : nat, (1 <= k < n)%nat ->
       PrimFloat.is_finite (kalman_gain (calls (__init__ q r) (repeat c k)))
       = true) ->
    length (outputs (__init__ q r) (repeat c n)) = n /\
    Forall (fun o => exists y : float, o = Return y /\ eqb y c = true)
           (outputs (__init__ q r) (repeat c n)).
Proof.
  intros q r c n Hc HK. split.
  - clear HK. generalize (__init__ q r). induction n as [|n IH]; intros self;
      [reflexivity|]. cbn [repeat outputs length]. f_equal. apply IH.
  - destruct n as [|n]; [constructor|]. cbn [repeat outputs].
    assert (Hcc : eqb c c = true).
    { rewrite b64_eqb_spec, SFeqb_refl. rewrite b64_is_finite in Hc.
      destruct (Prim2SF c); try discriminate Hc; reflexivity. }
    assert (Hfirst : update (__init__ q r) c = Return (mk q r c (lit 1) true, c))
      by (rewrite update_uninitialized by reflexivity; reflexivity).
    constructor.
    + exists c. split; [|exact Hcc]. unfold output. rewrite Hfirst. reflexivity.
    + assert (Hafter : after (__init__ q r) c = mk q r c (lit 1) true)
        by (unfold after; rewrite Hfirst; reflexivity).
      apply outputs_at_estimate.
      * rewrite Hafter. reflexivity.
      * exact Hc.
      * rewrite Hafter. exact Hcc.
      * intros k Hk.
        change (calls (after (__init__ q r) c) (repeat c k))
          with (calls (__init__ q r) (repeat c (S k))).
        apply HK. lia.
Qed.

End Simple_kalman_binary64.

(** ** Instances, and the inputs on which the original wordings fail *)

(** With [Q = 1.0], [R = 10.0], after [update(0.0)] the call [update(12.0)]
    has predicted error [2.0] and gain [2.0 / 12.0], and brings the error
    estimate below [2.0]. *)
Lemma gain_contract_nonnegative_noise_witness :
  leb (lit 0) (f64 1) = true /\ leb (lit 0) (f64 10) = true /\
  reachable (f64 1) (f64 10) (calls default [f64 0]) /\
  initialized (calls default [f64 0]) = true /\
  PrimFloat.is_finite (predicted_error (calls default [f64 0])) = true /\
  leb (lit 0) (kalman_gain (calls default [f64 0])) = true /\
  leb (kalman_gain (calls default [f64 0])) (lit 1) = true /\
  leb (lit 0) (error_estimate (after (calls default [f64 0]) (f64 12))) = true /\
  leb (error_estimate (after (calls default [f64 0]) (f64 12)))
      (predicted_error (calls default [f64 0])) = true.
Proof.
  assert (Hq : leb (lit 0) (f64 1) = true) by (vm_compute; reflexivity).
  assert (Hr : leb (lit 0) (f64 10) = true) by (vm_compute; reflexivity).
  pose proof (calls_reachable (f64 1) (f64 10) [f64 0]) as Hreach.
  assert (Hinit : initialized (calls default [f64 0]) = true)
    by (vm_compute; reflexivity).
  assert (Hfin : PrimFloat.is_finite (predicted_error (calls default [f64 0]))
                 = true) by (vm_compute; reflexivity).
  assert (Hupd : update (calls default [f64 0]) (f64 12)
                 = Return (after (calls default [f64 0]) (f64 12),
                           estimate (after (calls default [f64 0]) (f64 12))))
    by (vm_compute; reflexivity).
  split; [exact Hq|]. split; [exact Hr|]. split; [exact Hreach|].
  split; [exact Hinit|]. split; [exact Hfin|].
  exact (@gain_contract_nonnegative_noise _ _ _ _ _ _ Hq Hr Hreach Hinit Hfin Hupd).
Defined.
(** C2 as worded fails: with [Q = 1.0], [R = -4.0], after [update(0.0)] the
    next call has predicted error [2.0], divisor [-2.0], gain [-1.0] and
    leaves the error estimate at [4.0]. *)
Lemma gain_contract_fails_for_negative_noise :
  ~ gain_contract_for_every_filter Qc /\ ~ gain_contract_for_every_filter float.
Proof.
  split; intros Hclaim.
  - set (self := calls (__init__ (rat 1) (rat (-4))) [rat 0]).
    assert (Hupd : update self (rat 0)
                   = Return (after self (rat 0), estimate (after self (rat 0))))
      by (vm_compute; reflexivity).
    destruct (Hclaim (rat 1) (rat (-4)) self _ _ _ (calls_reachable _ _ _)
                eq_refl Hupd) as [Hgain _].
    vm_compute in Hgain. discriminate Hgain.
  - set (self := calls (__init__ (f64 1) (f64 (-4))) [f64 0]).
    assert (Hupd : update self (f64 0)
                   = Return (after self (f64 0), estimate (after self (f64 0))))
      by (vm_compute; reflexivity).
    destruct (Hclaim (f64 1) (f64 (-4)) self _ _ _ (calls_reachable _ _ _)
                eq_refl Hupd) as [Hgain _].
    vm_compute in Hgain. discriminate Hgain.
Qed.


(** With the default parameters, after [update(0.0)] the divisor is [12.0]
    and every call returns. *)
Lemma division_well_defined_witness :
  leb (lit 0) (f64 1) = true /\ ltb (lit 0) (f64 10) = true /\
  reachable (f64 1) (f64 10) (calls default [f64 0]) /\
  (PrimFloat.is_nan (divisor (calls default [f64 0])) = true \/
   ltb (lit 0) (divisor (calls default [f64 0])) = true) /\
  forall m : float, exists (self' : t float) (y : float),
    update (calls default [f64 0]) m = Return (self', y).
Proof.
  assert (Hq : leb (lit 0) (f64 1) = true) by (vm_compute; reflexivity).
  assert (Hr : ltb (lit 0) (f64 10) = true) by (vm_compute; reflexivity).
  pose proof (calls_reachable (f64 1) (f64 10) [f64 0]) as Hreach.
  split; [exact Hq|]. split; [exact Hr|]. split; [exact Hreach|].
  exact (@division_well_defined _ _ _ Hq Hr Hreach).
Defined.

(** C9 as worded fails: with [Q = R = 2^1023] the second call computes the
    error estimate [2^1023], the third the predicted error [inf] and the gain
    [inf / inf], which is NaN; from then on the error estimate and the
    divisor are NaN, and NaN is not greater than zero. *)
Lemma divisor_can_be_nan :
  ~ divisor_always_positive float.
Proof.
  intros Hclaim.
  assert (Hq : leb (lit 0) 0x1p1023%float = true) by (vm_compute; reflexivity).
  assert (Hr : ltb (lit 0) 0x1p1023%float = true) by (vm_compute; reflexivity).
  pose proof (Hclaim 0x1p1023%float 0x1p1023%float
                (calls (__init__ 0x1p1023%float 0x1p1023%float)
                       [f64 0; f64 0; f64 0])
                Hq Hr (calls_reachable _ _ _)) as Hpos.
  vm_compute in Hpos. discriminate Hpos.
Qed.

(** With the default parameters the stream [5.0, 5.0, 5.0] is returned as
    is: the two gains computed are finite. *)
Lemma constant_stream_fixed_point_witness :
  PrimFloat.is_finite (f64 5) = true /\
  (forall k : nat, (1 <= k < 3)%nat ->
     PrimFloat.is_finite (kalman_gain (calls default (repeat (f64 5) k)))
     = true) /\
  length (outputs default (repeat (f64 5) 3)) = 3%nat /\
  Forall (fun o => exists y : float, o = Return y /\ eqb y (f64 5) = true)
         (outputs default (repeat (f64 5) 3)).
Proof.
  assert (Hc : PrimFloat.is_finite (f64 5) = true) by (vm_compute; reflexivity).
  assert (HK : forall k : nat, (1 <= k < 3)%nat ->
             PrimFloat.is_finite (kalman_gain (calls default (repeat (f64 5) k)))
             = true).
  { intros k Hk. destruct k as [|[|[|k]]]; try lia; vm_compute; reflexivity. }
  split; [exact Hc|]. split; [exact HK|].
  exact (@constant_stream_fixed_point (f64 1) (f64 10) (f64 5) 3 Hc HK).
Defined.
(** C7 as worded fails: with [Q = R = 0.0] and the stream [0.0, 0.0, 0.0] the
    second call brings the error estimate to [0.0] and the third divides by
    zero. *)
Lemma constant_stream_can_raise :
  ~ constant_stream_returned Qc /\ ~ constant_stream_returned float.
Proof.
  split; intros Hclaim.
  - pose proof (Hclaim (rat 0) (rat 0) (rat 0) 3%nat) as Hout.
    apply (f_equal (map returns)) in Hout.
    vm_compute in Hout. discriminate Hout.
  - pose proof (Hclaim (f64 0) (f64 0) (f64 0) 3%nat) as Hout.
    apply (f_equal (map returns)) in Hout.
    vm_compute in Hout. discriminate Hout.
Qed.

(** With [Q = R = 2^1023] the error estimate is [1.0], then [2^1023], then
    NaN: never below zero. *)
Lemma error_estimate_never_negative_witness :
  leb (lit 0) 0x1p1023%float = true /\ leb (lit 0) 0x1p1023%float = true /\
  reachable 0x1p1023%float 0x1p1023%float
    (calls (__init__ 0x1p1023%float 0x1p1023%float) [f64 0; f64 0; f64 0]) /\
  (PrimFloat.is_nan
     (error_estimate
        (calls (__init__ 0x1p1023%float 0x1p1023%float) [f64 0; f64 0; f64 0]))
   = true \/
   leb (lit 0)
     (error_estimate
        (calls (__init__ 0x1p1023%float 0x1p1023%float) [f64 0; f64 0; f64 0]))
   = true).
Proof.
  assert (Hq : leb (lit 0) 0x1p1023%float = true) by (vm_compute; reflexivity).
  pose proof (calls_reachable 0x1p1023%float 0x1p1023%float
                [f64 0; f64 0; f64 0]) as Hreach.
  split; [exact Hq|]. split; [exact Hq|]. split; [exact Hreach|].
  exact (@error_estimate_never_negative _ _ _ Hq Hq Hreach).
Defined.

(** * The model matrices of [PositionVelocityKalmanFilter] *)

Section Position_velocity_claims.
Context {T : Type} {float_T : PyFloat T} {pow_T : PyPow T}.

(** C5, amended. [PositionVelocityKalmanFilter(dt, q, r)] returns an instance
    exactly when the three powers [dt ** 4], [dt ** 3] and [dt ** 2] return
    (none raises [OverflowError]); the instance then has
    [F = [[1, dt], [0, 1]]], [H = [[1, 0]]], [R = [[r]]] and the process noise
    covariance [[[ (q * dt**4) / 4, (q * dt**3) / 2 ],
    [ (q * dt**3) / 2, q * dt**2 ]]], each entry being the product by [q]
    divided afterwards, as the source computes it. *)
Theorem model_matrices_at_construction :
  forall (dt q r : T) (self : PV.t T),
    PV.__init__ dt q r = Return self <->
    exists p4 p3 p2 : T,
      pow dt 4 = Return p4 /\ pow dt 3 = Return p3 /\ pow dt 2 = Return p2 /\
      eqb (lit 4) (lit 0) = false /\ eqb (lit 2) (lit 0) = false /\
      self = PV.mk dt [lit 0; lit 0]
               [[lit 1; dt]; [lit 0; lit 1]]
               [[lit 1; lit 0]]
               [[quot (q * p4)%py (lit 4); quot (q * p3)%py (lit 2)];
                [quot (q * p3)%py (lit 2); (q * p2)%py]]
               [[r]].
Proof.
  intros dt q r self. unfold PV.__init__, truediv. split.
  - destruct (pow dt 4) as [p4|e4]; cbn [bind]; [|discriminate].
    destruct (eqb (lit 4) (lit 0)); cbn [bind]; [discriminate|].
    destruct (pow dt 3) as [p3|e3]; cbn [bind]; [|discriminate].
    destruct (eqb (lit 2) (lit 0)); cbn [bind]; [discriminate|].
    destruct (pow dt 2) as [p2|e2]; cbn [bind]; [|discriminate].
    intros [= <-]. exists p4, p3, p2. repeat split; reflexivity.
  - intros (p4 & p3 & p2 & -> & -> & -> & -> & -> & ->). reflexivity.
Qed.

(** X16. Construction raises exactly when one of the powers raises, with
    the exception of the first power that does, the entries of [Q] being
    evaluated from left to right: nothing else in [__init__] can fail. *)
Theorem construction_raises_with_power :
  forall (dt q r : T) (e : exn),
    eqb (lit 4) (lit 0) = false -> eqb (lit 2) (lit 0) = false ->
    (PV.__init__ dt q r = Raise e <->
     pow dt 4 = Raise e \/
     (returns (pow dt 4) = true /\ pow dt 3 = Raise e) \/
     (returns (pow dt 4) = true /\ returns (pow dt 3) = true /\
      pow dt 2 = Raise e)).
Proof.
  intros dt q r e H4 H2. unfold PV.__init__, truediv. rewrite H4, H2.
  destruct (pow dt 4) as [p4|e4]; cbn [bind returns].
  - destruct (pow dt 3) as [p3|e3]; cbn [bind returns].
    + destruct (pow dt 2) as [p2|e2]; cbn [bind returns]; split.
      * discriminate.
      * intros [H | [[_ H] | (_ & _ & H)]]; discriminate H.
      * intros [= ->]. right. right. repeat split.
      * intros [H | [[_ H] | (_ & _ & [= ->])]]; try discriminate H.
        reflexivity.
    + split.
      * intros [= ->]. right. left. split; reflexivity.
      * intros [H | [[_ [= ->]] | (_ & H & _)]]; try discriminate H.
        reflexivity.
  - split.
    + intros [= ->]. left. reflexivity.
    + intros [[= ->] | [[H _] | (H & _)]]; try discriminate H. reflexivity.
Qed.

End Position_velocity_claims.

(** With [dt = 4.0], [q = 1.0] and [r = 5.0] the powers [256.0], [64.0] and
    [16.0] are exact, and the covariance is [[[64, 32], [32, 16]]]. *)
Lemma model_matrices_at_construction_witness :
  PV.__init__ (pow_T := product_pow) (f64 4) (f64 1) (f64 5)
  = Return (PV.mk (f64 4) [f64 0; f64 0]
              [[f64 1; f64 4]; [f64 0; f64 1]]
              [[f64 1; f64 0]]
              [[quot (f64 1 * f64 256)%py (f64 4);
                quot (f64 1 * f64 64)%py (f64 2)];
               [quot (f64 1 * f64 64)%py (f64 2); (f64 1 * f64 16)%py]]
              [[f64 5]]) /\
  quot (f64 1 * f64 256)%py (f64 4) = f64 64 /\
  quot (f64 1 * f64 64)%py (f64 2) = f64 32 /\
  (f64 1 * f64 16)%py = f64 16.
Proof.
  assert (H4 : pow (PyPow := product_pow) (f64 4) 4 = Return (f64 256))
    by (vm_compute; reflexivity).
  assert (H3 : pow (PyPow := product_pow) (f64 4) 3 = Return (f64 64))
    by (vm_compute; reflexivity).
  assert (H2 : pow (PyPow := product_pow) (f64 4) 2 = Return (f64 16))
    by (vm_compute; reflexivity).
  assert (E4 : eqb (f64 4) (f64 0) = false) by (vm_compute; reflexivity).
  assert (E2 : eqb (f64 2) (f64 0) = false) by (vm_compute; reflexivity).
  split.
  - exact (proj2 (@model_matrices_at_construction float binary64 product_pow
                    (f64 4) (f64 1) (f64 5) _)
             (ex_intro _ (f64 256) (ex_intro _ (f64 64) (ex_intro _ (f64 16)
                (conj H4 (conj H3 (conj H2 (conj E4 (conj E2 eq_refl))))))))).
  - repeat split; vm_compute; reflexivity.
Defined.

(** C5 as worded fails in binary64: with [dt = 2^255] and [q = 16.0] the
    powers are exact and [dt ** 4 = 2^1020]; the source computes
    [(16.0 * 2^1020) / 4], whose product overflows to [inf], where
    [16.0 * (2^1020 / 4)] is [2^1022]. *)
Lemma claimed_covariance_overflows :
  ~ model_matrices_as_claimed float (pow_T := product_pow).
Proof.
  intros Hclaim.
  assert (H4 : pow (PyPow := product_pow) 0x1p255%float 4
               = Return 0x1p1020%float) by (vm_compute; reflexivity).
  assert (H3 : pow (PyPow := product_pow) 0x1p255%float 3
               = Return 0x1p765%float) by (vm_compute; reflexivity).
  assert (H2 : pow (PyPow := product_pow) 0x1p255%float 2
               = Return 0x1p510%float) by (vm_compute; reflexivity).
  assert (Hinit : exists self : PV.t float,
            PV.__init__ (pow_T := product_pow) 0x1p255%float (f64 16) (f64 0)
            = Return self /\
            match PV.Q self with
            | (a :: _) :: _ => PrimFloat.is_infinity a
            | _ => false
            end = true).
  { eexists. split; [vm_compute; reflexivity|]. vm_compute. reflexivity. }
  destruct Hinit as (self & Hinit & Hinf).
  destruct (Hclaim _ _ _ _ _ _ _ H4 H3 H2 Hinit) as (_ & _ & HQ & _).
  rewrite HQ in Hinf. vm_compute in Hinf. discriminate Hinf.
Qed.

(** With [dt = 2^300] the first power, [dt ** 4], is out of range:
    construction raises [OverflowError]. *)
Lemma construction_raises_with_power_witness :
  eqb (f64 4) (f64 0) = false /\ eqb (f64 2) (f64 0) = false /\
  pow (PyPow := product_pow) 0x1p300%float 4 = Raise OverflowError /\
  PV.__init__ (pow_T := product_pow) 0x1p300%float (f64 1) (f64 10)
  = Raise OverflowError.
Proof.
  assert (E4 : eqb (f64 4) (f64 0) = false) by (vm_compute; reflexivity).
  assert (E2 : eqb (f64 2) (f64 0) = false) by (vm_compute; reflexivity).
  assert (H4 : pow (PyPow := product_pow) 0x1p300%float 4 = Raise OverflowError)
    by (vm_compute; reflexivity).
  split; [exact E4|]. split; [exact E2|]. split; [exact H4|].
  exact (proj2 (@construction_raises_with_power float binary64 product_pow
                  0x1p300%float (f64 1) (f64 10) OverflowError E4 E2)
           (or_introl H4)).
Defined.
(** * The moving average of the specification *)

(** ** The last values of a list *)

Section Last_n.
Context {A : Type}.
Implicit Types (l s xs : list A) (n : nat).

Lemma last_n_all n l : (length l <= n)%nat -> last_n n l = l.
Proof.
  intros Hlen. unfold last_n.
  replace (length l - n)%nat with 0%nat by lia. reflexivity.
Qed.

Lemma last_n_app_exact n l s : length s = n -> last_n n (l ++ s) = s.
Proof.
  intros Hlen. unfold last_n. rewrite length_app.
  replace (length l + length s - n)%nat with (length l + 0)%nat by lia.
  rewrite skipn_app, Nat.add_0_r, skipn_all.
  replace (length l - length l)%nat with 0%nat by lia. reflexivity.
Qed.

Lemma last_n_length n l : length (last_n n l) = Nat.min n (length l).
Proof. unfold last_n. rewrite length_skipn. lia. Qed.

Lemma last_n_split n l : l = firstn (length l - n) l ++ last_n n l.
Proof. unfold last_n. symmetry. apply firstn_skipn. Qed.

Lemma last_n_app_last_n n l xs :
  last_n n (last_n n l ++ xs) = last_n n (l ++ xs).
Proof.
  destruct (Nat.le_gt_cases (length l) n) as [Hle | Hgt].
  - rewrite (@last_n_all n l) by assumption. reflexivity.
  - rewrite (last_n_split n l) at 2. rewrite <- app_assoc.
    set (w := last_n n l). set (pre := firstn (length l - n) l).
    assert (Hw : length w = n) by (unfold w; rewrite last_n_length; lia).
    assert (Hpre : length pre = (length l - n)%nat)
      by (unfold pre; rewrite length_firstn; lia).
    unfold last_n. rewrite !length_app, Hw.
    replace (n + length xs - n)%nat with (length xs) by lia.
    replace (length pre + (n + length xs) - n)%nat
      with (length pre + length xs)%nat by lia.
    rewrite (skipn_app (length pre + length xs) pre).
    rewrite (@skipn_all2 _ (length pre + length xs) pre) by lia. cbn [app].
    replace (length pre + length xs - length pre)%nat with (length xs) by lia.
    reflexivity.
Qed.

(** One push followed by the eviction of the oldest value when the window
    overflows keeps the last [n] values. *)
Lemma push_evict_last_n n l (x : A) :
  (length l <= n)%nat ->
  (if (Z.of_nat n <? Z.of_nat (length (l ++ [x])))%Z then tl (l ++ [x])
   else l ++ [x]) = last_n n (l ++ [x]).
Proof.
  intros Hlen. rewrite length_app. cbn [length].
  destruct (Z.ltb_spec (Z.of_nat n) (Z.of_nat (length l + 1))) as [Hlt | Hge].
  - unfold last_n. rewrite length_app. cbn [length].
    replace (length l + 1 - n)%nat with 1%nat by lia.
    destruct (l ++ [x]); reflexivity.
  - rewrite last_n_all; [reflexivity|]. rewrite length_app. cbn [length]. lia.
Qed.

End Last_n.

(** ** The window after each call *)

Section Moving_average_windows.
Context {T : Type} {float_T : PyFloat T}.

Implicit Types (self : MA.t T) (xs l : list T) (c v x : T).

(** A valid filter: positive window size, window within that size, and no
    count up to the window size vanishes as a float. *)
Lemma update_window self x :
  (0 < MA.N self)%Z ->
  (length (MA.window self) <= Z.to_nat (MA.N self))%nat ->
  (forall k : Z, (0 < k <= MA.N self)%Z -> eqb (lit k) (lit 0) = false) ->
  MA.update self x =
    Return (MA.mk (MA.N self)
                  (last_n (Z.to_nat (MA.N self)) (MA.window self ++ [x])),
            quot (MA.total (last_n (Z.to_nat (MA.N self)) (MA.window self ++ [x])))
                 (lit (Z.of_nat
                         (length (last_n (Z.to_nat (MA.N self))
                                         (MA.window self ++ [x])))))).
Proof.
  intros HN Hlen Hlit.
  set (W := last_n (Z.to_nat (MA.N self)) (MA.window self ++ [x])).
  assert (Hkept : (if (MA.N self <? Z.of_nat (length (MA.window self ++ [x])))%Z
                   then tl (MA.window self ++ [x])
                   else MA.window self ++ [x]) = W).
  { rewrite <- (Z2Nat.id (MA.N self)) at 1 by lia.
    apply push_evict_last_n. exact Hlen. }
  assert (HW : (0 < length W <= Z.to_nat (MA.N self))%nat).
  { unfold W. rewrite last_n_length, length_app. cbn [length]. lia. }
  unfold MA.update. cbv zeta. rewrite Hkept.
  unfold MA.mean, truediv. rewrite Hlit by lia. cbn [bind]. reflexivity.
Qed.

Lemma calls_window xs : forall self,
  (0 < MA.N self)%Z ->
  (length (MA.window self) <= Z.to_nat (MA.N self))%nat ->
  (forall k : Z, (0 < k <= MA.N self)%Z -> eqb (lit k) (lit 0) = false) ->
  MA.N (MA.calls self xs) = MA.N self /\
  MA.window (MA.calls self xs)
    = last_n (Z.to_nat (MA.N self)) (MA.window self ++ xs).
Proof.
  induction xs as [|x xs IH]; intros self HN Hlen Hlit.
  - cbn. rewrite app_nil_r, last_n_all by exact Hlen. split; reflexivity.
  - change (MA.calls self (x :: xs)) with (MA.calls (MA.after self x) xs).
    assert (Hafter : MA.after self x
                     = MA.mk (MA.N self)
                         (last_n (Z.to_nat (MA.N self)) (MA.window self ++ [x])))
      by (unfold MA.after; rewrite update_window by assumption; reflexivity).
    rewrite Hafter.
    destruct (IH (MA.mk (MA.N self)
                    (last_n (Z.to_nat (MA.N self)) (MA.window self ++ [x]))))
      as [EN EW].
    + exact HN.
    + cbn [MA.N MA.window]. rewrite last_n_length. lia.
    + exact Hlit.
    + cbn [MA.N MA.window] in EN, EW.
      rewrite EN, EW, last_n_app_last_n, <- app_assoc.
      split; reflexivity.
Qed.

(** The outcome of the [i]-th call of a sequence. *)
Lemma outputs_nth xs : forall self (i : nat),
  nth_error (MA.outputs self xs) i
  = match nth_error xs i with
    | Some x => Some (MA.output (MA.calls self (firstn i xs)) x)
    | None => None
    end.
Proof.
  induction xs as [|x xs IH]; intros self [|i]; cbn; try reflexivity.
  apply IH.
Qed.

Lemma firstn_succ_nth xs : forall (i : nat) x,
  nth_error xs i = Some x -> firstn (S i) xs = firstn i xs ++ [x].
Proof.
  induction xs as [|x0 xs IH]; intros [|i] x Hnth; cbn in *; try discriminate.
  - congruence.
  - f_equal. apply IH. exact Hnth.
Qed.

(** From a fresh filter, the [i]-th call returns the sum of the last [N]
    values received so far divided by their number. *)
Lemma fresh_output (N : Z) self xs (i : nat) x :
  MA.__init__ N = Return self ->
  (forall k : Z, (0 < k <= N)%Z -> eqb (lit k) (lit 0) = false) ->
  nth_error xs i = Some x ->
  MA.output (MA.calls self (firstn i xs)) x
  = Return (quot (MA.total (last_n (Z.to_nat N) (firstn (S i) xs)))
                 (lit (Z.of_nat (length (last_n (Z.to_nat N) (firstn (S i) xs)))))).
Proof.
  unfold MA.__init__. destruct (Z.leb_spec N 0) as [|HN]; [discriminate|].
  intros [= <-] Hlit Hnth.
  destruct (@calls_window (firstn i xs) (MA.mk N [])) as [EN EW];
    [exact HN | cbn; lia | exact Hlit |].
  cbn [MA.N MA.window app] in EN, EW. unfold MA.output. rewrite update_window.
  - rewrite EN, EW, last_n_app_last_n, <- (firstn_succ_nth _ _ Hnth).
    reflexivity.
  - rewrite EN. exact HN.
  - rewrite EN, EW, last_n_length. lia.
  - rewrite EN. exact Hlit.
Qed.

Lemma firstn_repeat c (j b : nat) :
  (j <= b)%nat -> firstn j (repeat c b) = repeat c j.
Proof.
  revert b. induction j as [|j IH]; intros [|b] Hle; cbn; try reflexivity; try lia.
  f_equal. apply IH. lia.
Qed.

(** The stream [c, ..., c, v, c, ..., c] cut after the [j]-th value that
    follows the outlier. *)
Lemma firstn_outlier_stream c v (a b j : nat) :
  (j <= b)%nat ->
  firstn (S (a + j)) (repeat c a ++ v :: repeat c b)
  = repeat c a ++ v :: repeat c j.
Proof.
  intros Hle. rewrite firstn_app, repeat_length.
  rewrite firstn_all2 by (rewrite repeat_length; lia).
  replace (S (a + j) - a)%nat with (S j) by lia.
  cbn [firstn]. rewrite firstn_repeat by exact Hle. reflexivity.
Qed.

(** The last [n] values once [n] values or more have been received, [j] of
    them after the outlier. *)
Lemma window_after_outlier c v (n a j : nat) :
  (0 < n)%nat -> (n <= a + j + 1)%nat ->
  last_n n (repeat c a ++ v :: repeat c j) = window_with_outlier n j c v.
Proof.
  intros Hn Ha. unfold window_with_outlier.
  destruct (Nat.ltb_spec j n) as [Hlt | Hge].
  - replace a with ((a - (n - 1 - j)) + (n - 1 - j))%nat at 1 by lia.
    rewrite repeat_app, <- app_assoc.
    apply last_n_app_exact.
    rewrite length_app. cbn [length]. rewrite !repeat_length. lia.
  - replace j with ((j - n) + n)%nat at 1 by lia.
    rewrite repeat_app.
    change (repeat c a ++ v :: repeat c (j - n) ++ repeat c n)
      with (repeat c a ++ (v :: repeat c (j - n)) ++ repeat c n).
    rewrite app_assoc. apply last_n_app_exact. apply repeat_length.
Qed.

Lemma window_with_outlier_length c v (n j : nat) :
  (0 < n)%nat -> length (window_with_outlier n j c v) = n.
Proof.
  intros Hn. unfold window_with_outlier.
  destruct (Nat.ltb_spec j n) as [Hlt | Hge].
  - rewrite length_app. cbn [length]. rewrite !repeat_length. lia.
  - apply repeat_length.
Qed.


End Moving_average_windows.


